(** * Order execution engine: lifecycle, quote routing, queue and broadcast hub

    A shallow embedding of the TypeScript sources, named here by the module
    paths their imports use (the file of this tree that holds them follows):

    - [types/order.ts]                  the data model
                                        ([src/types/order.ts]);
    - [workers/orderWorker.ts]          [orderWorker], [updateOrderStatus]
                                        (second half of [src/config/redis.ts]);
    - [dex/MockDexRouter.ts]            [getBestQuote], [executeSwap]
                                        ([unnamed/part_004]);
    - [controllers/orderController.ts]  [executeOrder] and its zod schema
                                        ([unnamed/part_005]);
    - [queue/orderQueue.ts]             [addOrderToQueue]
                                        ([src/queue/orderQueue.ts]);
    - [websocket/WebSocketManager.ts]   the broadcast hub (second half of
                                        [src/websocket/WebSocketManager.test.ts]);

    followed by the properties of the order lifecycle that were checked
    against them.

    Conventions of the embedding.
    - Asynchronous functions become computations in the monad [M]: a state
      transformer over [World] whose result is a value or a thrown value.
      A thrown value leaves the state reached so far in place, as a rejected
      promise does.
    - What the outside world decides (the system clock, whether the database
      answers, the random numbers of the simulated exchanges, fresh uuids) is
      read from an [Env] of oracles, indexed by the number of reads made so far.
    - Maps are [gmap]s; a JS [Set] is a duplicate-free list in insertion order.
    - Time stamps are the epoch milliseconds that [toISOString] prints.
    - A string is the sequence of the bytes of its UTF-8 encoding.
    - The libraries the sources call ([JSON], the database client, the queue,
      the schema validator) are modelled by what the sources observe of them. *)

From Stdlib Require Import ZArith Ascii String Floats.SpecFloat.
From stdpp Require Import gmap strings list fin_maps sorting.

(** ** Data model ([types/order.ts]) *)

Inductive OrderStatus :=
  | pending | routing | building | submitted | confirmed | failed.

#[global] Instance OrderStatus_eq_dec : EqDecision OrderStatus.
Proof. solve_decision. Defined.

(** The [updates] argument of [updateOrderStatus]; it is also the [metadata]
    of the history entry it produces. A field that is [undefined] is [None]. *)
Record Updates := {
  u_dexUsed : option string;
  u_executedPrice : option string;
  u_txHash : option string;
  u_failureReason : option string;
}.

Definition noUpdates : Updates :=
  {| u_dexUsed := None; u_executedPrice := None; u_txHash := None;
     u_failureReason := None |}.

Record StatusTransition := {
  t_status : OrderStatus;
  timestamp : Z;
  metadata : Updates;
}.

(** The [statusHistory] column holds text. The code looks at it only through
    its truthiness and through [JSON.parse], so the column is represented by
    what those two observations return:
    - [HistFalsy]: [null] or the empty string, the [if] is not entered;
    - [HistUnparsable]: a text on which [JSON.parse] throws;
    - [HistNotArray]: a text whose parse is not an array;
    - [HistJson h]: [JSON.stringify h], whose parse is the array [h]; its
      elements have the shape the code declares for them. *)
Inductive HistoryColumn :=
  | HistFalsy
  | HistUnparsable
  | HistNotArray
  | HistJson (h : list StatusTransition).

(** A row of the [order] table. *)
Record Order := {
  id : string;
  tokenIn : string;
  tokenOut : string;
  amountIn : string;
  status : OrderStatus;
  statusHistory : HistoryColumn;
  dexUsed : option string;
  executedPrice : option string;
  txHash : option string;
  failureReason : option string;
  createdAt : Z;
  updatedAt : Z;
}.

(** [OrderState]: the snapshot sent to the observers. *)
Record OrderState := {
  s_id : string;
  s_tokenIn : string;
  s_tokenOut : string;
  s_amountIn : string;
  s_dexUsed : option string;
  s_executedPrice : option string;
  s_txHash : option string;
  s_status : OrderStatus;
  s_statusHistory : list StatusTransition;
  s_failureReason : option string;
  s_createdAt : Z;
  s_updatedAt : Z;
}.

Record WebSocketMessage := {
  m_type : string;
  m_orderId : string;
  m_status : OrderStatus;
  m_order : OrderState;
  m_timestamp : Z;
}.

Record DexQuote := {
  dex : string;
  price : string;
  amountOut : string;
  estimatedGas : option string;
}.

Record OrderJobData := {
  orderId : string;
  j_tokenIn : string;
  j_tokenOut : string;
  j_amountIn : string;
}.

(** ** The broadcast hub ([websocket/WebSocketManager.ts]) *)

(** A transport handle as the hub observes it: its [readyState] (1 is OPEN)
    and whether a call of [send] on it throws. *)
Record WebSocket := {
  readyState : nat;
  sendThrows : bool;
}.

Record WebSocketManager := {
  clients : gmap string WebSocket;
  orderClients : gmap string (list string);
}.

Definition newWebSocketManager : WebSocketManager :=
  {| clients := ∅; orderClients := ∅ |}.

(** [Set.prototype.add] and [Set.prototype.delete] on an insertion-ordered set. *)
Definition setAdd (x : string) (s : list string) : list string :=
  if decide (x ∈ s) then s else s ++ [x].

Definition setDelete (x : string) (s : list string) : list string :=
  filter (λ y, y ≠ x) s.

(** The [close] and [error] handlers that [registerClient] installs call
    [unregisterClient clientId]; they run when the transport reports the event. *)
Definition registerClient (clientId : string) (ws : WebSocket)
    (h : WebSocketManager) : WebSocketManager :=
  {| clients := <[clientId := ws]> (clients h); orderClients := orderClients h |}.

Definition subscribeToOrder (clientId orderId : string)
    (h : WebSocketManager) : WebSocketManager :=
  {| clients := clients h;
     orderClients :=
       <[orderId := setAdd clientId (default [] (orderClients h !! orderId))]>
         (orderClients h) |}.

(** The body of the loop over [orderClients.entries()]: delete the client from
    the set and drop the entry when the set became empty. *)
Definition dropClient (clientId : string) (clientSet : list string)
    : option (list string) :=
  let clientSet' := setDelete clientId clientSet in
  if decide (length clientSet' = 0%nat) then None else Some clientSet'.

Definition unregisterClient (clientId : string)
    (h : WebSocketManager) : WebSocketManager :=
  {| clients := delete clientId (clients h);
     orderClients := omap (dropClient clientId) (orderClients h) |}.

Definition getClientCount (h : WebSocketManager) : nat := size (clients h).

(** [broadcastOrderUpdate], the loop body for one subscribed client id: the
    state is the hub and the list of [ws.send] calls that succeeded so far,
    each tagged with the client id whose handle was used. *)
Definition notifyClient (message : WebSocketMessage) (clientId : string)
    (acc : WebSocketManager * list (string * WebSocketMessage))
    : WebSocketManager * list (string * WebSocketMessage) :=
  let '(h, out) := acc in
  match clients h !! clientId with
  | Some ws =>
      if decide (readyState ws = 1%nat) then
        if sendThrows ws then (unregisterClient clientId h, out)
        else (h, out ++ [(clientId, message)])
      else (unregisterClient clientId h, out)
  | None => (unregisterClient clientId h, out)
  end.

(** The [for ... of subscribedClients] loop. The set object is live while
    [unregisterClient] deletes from it, but only the element being visited is
    ever deleted, so every element present at the start is visited once, in
    insertion order: the loop is a fold over the set as it was at the start. *)
Definition broadcast (message : WebSocketMessage) (h : WebSocketManager)
    : WebSocketManager * list (string * WebSocketMessage) :=
  let subscribedClients := default [] (orderClients h !! m_orderId message) in
  foldl (λ acc clientId, notifyClient message clientId acc) (h, [])
        subscribedClients.

(** ** The dispatcher's job table *)

(** Modelled from the spec: the states of a job of the queue library, which is
    not part of the sources. A job "transitions through waiting → active →
    (completed | failed-pending-retry | failed-terminal)". *)
Inductive JobState :=
  | job_waiting
  | job_active
  | job_completed
  | job_failed_pending_retry
  | job_failed_terminal.

Record Job := {
  jobId : string;
  jobName : string;
  jobData : OrderJobData;
  attempts : nat;
  backoffDelay : Z;
  jobState : JobState;
  attemptsMade : nat;
}.

(** ** The world and the monad of asynchronous computations *)

Record World := {
  orders : gmap string Order;
  jobs : gmap string Job;
  hub : WebSocketManager;
  sent : list (string * WebSocketMessage);
  clockReads : nat;
  storeCalls : nat;
  quoteCalls : nat;
  swapCalls : nat;
  uuidCalls : nat;
  queueCalls : nat;
}.

(** The oracles: the [k]-th reading of the system clock, whether the [k]-th
    call of the database client rejects (with which message), the amounts the
    [k]-th simulated quotes come out at (the [toFixed(8)] text), the index
    [Math.floor(Math.random() * chars.length)] that the [k]-th swap draws at
    iteration [i] of the loop of [randomHex], the [k]-th uuid, and whether the
    [k]-th call of the queue rejects (its connection does not answer). *)
Record Env := {
  dateNow : nat → Z;
  storeFault : nat → option string;
  raydiumOut : nat → string;
  meteoraOut : nat → string;
  randomIndex : nat → nat → nat;
  uuidv4 : nat → string;
  queueFault : nat → option string;
}.

(** What a [throw] carries: an [Error] with its message, or something else. *)
Inductive Thrown :=
  | JsError (message : string)
  | NonError.

Inductive Outcome (A : Type) :=
  | Ok (a : A)
  | Throw (e : Thrown).
Arguments Ok {A} a.
Arguments Throw {A} e.

Definition M (A : Type) : Type := World → Outcome A * World.

Definition ret {A} (a : A) : M A := λ w, (Ok a, w).

Definition bind {A B} (m : M A) (k : A → M B) : M B :=
  λ w, match m w with
       | (Ok a, w') => k a w'
       | (Throw e, w') => (Throw e, w')
       end.

Definition throw {A} (e : Thrown) : M A := λ w, (Throw e, w).

(** [try { body } catch (error) { handler error }] *)
Definition tryCatch {A} (body : M A) (handler : Thrown → M A) : M A :=
  λ w, match body w with
       | (Ok a, w') => (Ok a, w')
       | (Throw e, w') => handler e w'
       end.

Notation "x <- m ;; k" := (bind m (λ x, k))
  (at level 100, m at next level, right associativity).
Notation "m ;;; k" := (bind m (λ _, k))
  (at level 100, right associativity).

Definition setOrders (os : gmap string Order) (w : World) : World :=
  {| orders := os; jobs := jobs w; hub := hub w; sent := sent w;
     clockReads := clockReads w; storeCalls := storeCalls w;
     quoteCalls := quoteCalls w; swapCalls := swapCalls w;
     uuidCalls := uuidCalls w; queueCalls := queueCalls w |}.

Definition setJobs (js : gmap string Job) (w : World) : World :=
  {| orders := orders w; jobs := js; hub := hub w; sent := sent w;
     clockReads := clockReads w; storeCalls := storeCalls w;
     quoteCalls := quoteCalls w; swapCalls := swapCalls w;
     uuidCalls := uuidCalls w; queueCalls := queueCalls w |}.

Definition setHub (h : WebSocketManager)
    (out : list (string * WebSocketMessage)) (w : World) : World :=
  {| orders := orders w; jobs := jobs w; hub := h; sent := out;
     clockReads := clockReads w; storeCalls := storeCalls w;
     quoteCalls := quoteCalls w; swapCalls := swapCalls w;
     uuidCalls := uuidCalls w; queueCalls := queueCalls w |}.

Definition tickClock (w : World) : World :=
  {| orders := orders w; jobs := jobs w; hub := hub w; sent := sent w;
     clockReads := S (clockReads w); storeCalls := storeCalls w;
     quoteCalls := quoteCalls w; swapCalls := swapCalls w;
     uuidCalls := uuidCalls w; queueCalls := queueCalls w |}.

Definition tickStore (w : World) : World :=
  {| orders := orders w; jobs := jobs w; hub := hub w; sent := sent w;
     clockReads := clockReads w; storeCalls := S (storeCalls w);
     quoteCalls := quoteCalls w; swapCalls := swapCalls w;
     uuidCalls := uuidCalls w; queueCalls := queueCalls w |}.

Definition tickQuote (w : World) : World :=
  {| orders := orders w; jobs := jobs w; hub := hub w; sent := sent w;
     clockReads := clockReads w; storeCalls := storeCalls w;
     quoteCalls := S (quoteCalls w); swapCalls := swapCalls w;
     uuidCalls := uuidCalls w; queueCalls := queueCalls w |}.

Definition tickSwap (w : World) : World :=
  {| orders := orders w; jobs := jobs w; hub := hub w; sent := sent w;
     clockReads := clockReads w; storeCalls := storeCalls w;
     quoteCalls := quoteCalls w; swapCalls := S (swapCalls w);
     uuidCalls := uuidCalls w; queueCalls := queueCalls w |}.

Definition tickUuid (w : World) : World :=
  {| orders := orders w; jobs := jobs w; hub := hub w; sent := sent w;
     clockReads := clockReads w; storeCalls := storeCalls w;
     quoteCalls := quoteCalls w; swapCalls := swapCalls w;
     uuidCalls := S (uuidCalls w); queueCalls := queueCalls w |}.

Definition tickQueue (w : World) : World :=
  {| orders := orders w; jobs := jobs w; hub := hub w; sent := sent w;
     clockReads := clockReads w; storeCalls := storeCalls w;
     quoteCalls := quoteCalls w; swapCalls := swapCalls w;
     uuidCalls := uuidCalls w; queueCalls := S (queueCalls w) |}.

(** [error instanceof Error ? error.message : "Unknown error"] *)
Definition errorMessage (error : Thrown) : string :=
  match error with
  | JsError message => message
  | NonError => "Unknown error"
  end.

(** ** Numbers: [parseFloat] and the comparison of doubles

    A JS number is an IEEE 754 binary64 value, here a [spec_float] at
    precision 53 and maximal exponent 1024; [a > b] is [SFltb b a], false
    whenever one side is NaN. *)

Definition jsGt (a b : spec_float) : bool := SFltb b a.
Definition jsEq (a b : spec_float) : bool := SFeqb a b.

(** The white space that [parseFloat] skips is that of [StrWhiteSpaceChar]:
    the white space and the line terminators of the language. Those of one
    byte are TAB, LF, VT, FF, CR and the space. *)
Definition isWhiteSpace (c : ascii) : bool :=
  let n := nat_of_ascii c in
  ((9 <=? n)%nat && (n <=? 13)%nat) || (n =? 32)%nat.

(** U+00A0, the no-break space, is the one of two bytes: C2 A0. *)
Definition isWhiteSpace2 (c1 c2 : ascii) : bool :=
  (nat_of_ascii c1 =? 194)%nat && (nat_of_ascii c2 =? 160)%nat.

(** Those of three bytes: U+1680 (E1 9A 80), U+2000 to U+200A (E2 80 80 to
    E2 80 8A), the line and paragraph separators U+2028 and U+2029 (E2 80 A8,
    E2 80 A9), U+202F (E2 80 AF), U+205F (E2 81 9F), U+3000 (E3 80 80) and
    the byte order mark U+FEFF (EF BB BF). *)
Definition isWhiteSpace3 (c1 c2 c3 : ascii) : bool :=
  let n1 := nat_of_ascii c1 in
  let n2 := nat_of_ascii c2 in
  let n3 := nat_of_ascii c3 in
  ((n1 =? 225) && (n2 =? 154) && (n3 =? 128))%nat
  || ((n1 =? 226) && (n2 =? 128)
      && (((128 <=? n3) && (n3 <=? 138)) || (n3 =? 168) || (n3 =? 169)
          || (n3 =? 175)))%nat
  || ((n1 =? 226) && (n2 =? 129) && (n3 =? 159))%nat
  || ((n1 =? 227) && (n2 =? 128) && (n3 =? 128))%nat
  || ((n1 =? 239) && (n2 =? 187) && (n3 =? 191))%nat.

Definition digitOf (c : ascii) : option Z :=
  let n := nat_of_ascii c in
  if ((48 <=? n)%nat && (n <=? 57)%nat) then Some (Z.of_nat n - 48)%Z else None.

Fixpoint trimStart (s : string) : string :=
  match s with
  | String c1 s1 =>
      if isWhiteSpace c1 then trimStart s1
      else
        match s1 with
        | String c2 s2 =>
            if isWhiteSpace2 c1 c2 then trimStart s2
            else
              match s2 with
              | String c3 s3 =>
                  if isWhiteSpace3 c1 c2 c3 then trimStart s3 else s
              | EmptyString => s
              end
        | EmptyString => s
        end
  | EmptyString => s
  end.

(** Reads the longest run of decimal digits: the number read on top of [acc],
    how many digits were read, and the rest of the text. *)
Fixpoint readDigits (s : string) (acc : Z) (n : nat) : Z * nat * string :=
  match s with
  | String c s' =>
      match digitOf c with
      | Some d => readDigits s' (10 * acc + d)%Z (S n)
      | None => (acc, n, s)
      end
  | EmptyString => (acc, n, s)
  end.

Definition readSign (s : string) : bool * string :=
  match s with
  | String "-" s' => (true, s')
  | String "+" s' => (false, s')
  | _ => (false, s)
  end.

(** The exponent part [e±ddd], which counts only when digits follow. *)
Definition readExponent (s : string) : Z :=
  match s with
  | String c s' =>
      if bool_decide (c = "e"%char ∨ c = "E"%char) then
        let '(neg, s'') := readSign s' in
        let '(e, n, _) := readDigits s'' 0%Z 0%nat in
        if decide (n = 0%nat) then 0%Z else if neg then (- e)%Z else e
      else 0%Z
  | EmptyString => 0%Z
  end.

(** The double nearest to [(-1)^neg * m * 10^e], ties to even. *)
Definition decimalToDouble (neg : bool) (m e : Z) : spec_float :=
  match m with
  | Zpos p =>
      if (0 <=? e)%Z then
        binary_normalize 53 1024
          ((if neg then Zneg p else Zpos p) * 10 ^ e)%Z 0 false
      else
        SFdiv 53 1024 (S754_finite neg p 0)
                      (S754_finite false (Z.to_pos (10 ^ (- e))) 0)
  | _ => S754_zero neg
  end.

(** [parseFloat]: leading white space is skipped, then the longest prefix
    that is a decimal literal is converted; NaN when there is none. *)
Definition parseFloat (s : string) : spec_float :=
  let '(neg, s1) := readSign (trimStart s) in
  if String.prefix "Infinity" s1 then S754_infinity neg else
  let '(ip, ni, s2) := readDigits s1 0%Z 0%nat in
  let '(m, nf, s3) :=
    match s2 with
    | String "." s2' => readDigits s2' ip 0%nat
    | _ => (ip, 0%nat, s2)
    end in
  if decide (ni = 0%nat ∧ nf = 0%nat) then S754_nan
  else decimalToDouble neg m (readExponent s3 - Z.of_nat nf).

(** ** Regular expressions, for the [amountIn] pattern of the request schema *)

Inductive regex :=
  | Void
  | Eps
  | Class (p : ascii → bool)
  | Cat (r1 r2 : regex)
  | Alt (r1 r2 : regex)
  | Star (r : regex).

Fixpoint nullable (r : regex) : bool :=
  match r with
  | Void => false
  | Eps => true
  | Class _ => false
  | Cat r1 r2 => nullable r1 && nullable r2
  | Alt r1 r2 => nullable r1 || nullable r2
  | Star _ => true
  end.

Fixpoint deriv (c : ascii) (r : regex) : regex :=
  match r with
  | Void => Void
  | Eps => Void
  | Class p => if p c then Eps else Void
  | Cat r1 r2 =>
      if nullable r1 then Alt (Cat (deriv c r1) r2) (deriv c r2)
      else Cat (deriv c r1) r2
  | Alt r1 r2 => Alt (deriv c r1) (deriv c r2)
  | Star r1 => Cat (deriv c r1) (Star r1)
  end.

(** [/^r$/.test(s)]: the whole of [s] matches [r]. *)
Fixpoint regexTest (r : regex) (s : string) : bool :=
  match s with
  | EmptyString => nullable r
  | String c s' => regexTest (deriv c r) s'
  end.

Definition isDigit (c : ascii) : bool :=
  match digitOf c with Some _ => true | None => false end.

Definition reDigit : regex := Class isDigit.                   (* \d *)
Definition rePlus (r : regex) : regex := Cat r (Star r).       (* r+ *)
Definition reOpt (r : regex) : regex := Alt r Eps.             (* r? *)
Definition reChar (c : ascii) : regex := Class (λ x, bool_decide (x = c)).

(** [/^\d+(\.\d+)?$/] *)
Definition amountInPattern : regex :=
  Cat (rePlus reDigit) (reOpt (Cat (reChar ".") (rePlus reDigit))).

(** ** The request schema ([orderRequestSchema]) *)

(** A field of the request body as it arrives: absent, a string, or any
    other JSON value. *)
Inductive JsValue :=
  | JsUndefined
  | JsString (s : string)
  | JsOther.

Record RequestBody := {
  b_tokenIn : JsValue;
  b_tokenOut : JsValue;
  b_amountIn : JsValue;
  b_orderType : JsValue;
}.

(** The parsed request, [validationResult.data]. *)
Record OrderRequest := {
  r_tokenIn : string;
  r_tokenOut : string;
  r_amountIn : string;
  r_orderType : string;
}.

Inductive ZodIssue :=
  | invalid_type (path : string)
  | too_small (path message : string)
  | invalid_string (path message : string)
  | invalid_enum_value (path : string).

(** [z.string().min(1, message)] *)
Definition zStringMin1 (path message : string) (v : JsValue)
    : string + list ZodIssue :=
  match v with
  | JsString s =>
      if decide (1 ≤ String.length s)%nat then inl s
      else inr [too_small path message]
  | _ => inr [invalid_type path]
  end.

(** [z.string().regex(re, message)] *)
Definition zStringRegex (re : regex) (path message : string) (v : JsValue)
    : string + list ZodIssue :=
  match v with
  | JsString s =>
      if regexTest re s then inl s else inr [invalid_string path message]
  | _ => inr [invalid_type path]
  end.

(** [z.enum(["market"]).optional().default("market")] *)
Definition zOrderType (path : string) (v : JsValue) : string + list ZodIssue :=
  match v with
  | JsUndefined => inl "market"
  | JsString s =>
      if decide (s = "market") then inl s else inr [invalid_enum_value path]
  | JsOther => inr [invalid_type path]
  end.

Definition issuesOf {A} (r : A + list ZodIssue) : list ZodIssue :=
  match r with inl _ => [] | inr l => l end.

(** [orderRequestSchema.safeParse]: every field is checked and the issues of
    all of them are collected. *)
Definition safeParse (body : RequestBody) : OrderRequest + list ZodIssue :=
  let tIn := zStringMin1 "tokenIn" "tokenIn is required" (b_tokenIn body) in
  let tOut := zStringMin1 "tokenOut" "tokenOut is required" (b_tokenOut body) in
  let amt := zStringRegex amountInPattern "amountIn"
               "amountIn must be a valid number" (b_amountIn body) in
  let ty := zOrderType "orderType" (b_orderType body) in
  match tIn, tOut, amt, ty with
  | inl a, inl b, inl c, inl d =>
      inl {| r_tokenIn := a; r_tokenOut := b; r_amountIn := c; r_orderType := d |}
  | _, _, _, _ => inr (issuesOf tIn ++ issuesOf tOut ++ issuesOf amt ++ issuesOf ty)
  end.

Record OrderResponse := {
  o_orderId : string;
  o_status : OrderStatus;
  o_tokenIn : string;
  o_tokenOut : string;
  o_amountIn : string;
  o_createdAt : Z;
}.

Inductive Reply :=
  | Reply400Validation (details : list ZodIssue)
  | Reply400OnlyMarket
  | Reply201 (response : OrderResponse)
  | Reply500 (message : string).

(** ** The quote router ([dex/MockDexRouter.ts]) *)

(** The simulated quotes: [price] and [amountOut] are the same product
    [parseFloat(amountIn) * priceMultiplier], printed by [toFixed(8)]; that
    text is the argument [out]. *)
Definition raydiumQuote (out : string) : DexQuote :=
  {| dex := "raydium"; price := out; amountOut := out;
     estimatedGas := Some "50000" |}.

Definition meteoraQuote (out : string) : DexQuote :=
  {| dex := "meteora"; price := out; amountOut := out;
     estimatedGas := Some "45000" |}.

(** The comparison of [getBestQuote]:
    [parseFloat(raydiumQuote.amountOut) > parseFloat(meteoraQuote.amountOut)
       ? raydiumQuote : meteoraQuote]. *)
Definition bestQuote (raydium meteora : DexQuote) : DexQuote :=
  if jsGt (parseFloat (amountOut raydium)) (parseFloat (amountOut meteora))
  then raydium else meteora.

(** [randomHex]: the alphabet, and the loop that draws from it. *)
Definition hexAlphabet : string := "0123456789abcdef".

(** [chars[i]] appended to a string: out of range it is [undefined], which the
    concatenation prints. *)
Definition charAt (s : string) (i : nat) : string :=
  match String.get i s with
  | Some c => String c EmptyString
  | None => "undefined"
  end.

(** The loop of [randomHex]: [rand i] is the index
    [Math.floor(Math.random() * chars.length)] drawn at iteration [i]. *)
Fixpoint randomHexLoop (todo i : nat) (rand : nat → nat) (result : string)
    : string :=
  match todo with
  | 0%nat => result
  | S todo' =>
      randomHexLoop todo' (S i) rand (result +:+ charAt hexAlphabet (rand i))
  end.

Definition randomHexOf (length : nat) (rand : nat → nat) : string :=
  randomHexLoop length 0 rand "".

(** ** The effectful operations *)

Section Program.
Variable env : Env.

(** [new Date()] *)
Definition newDate : M Z :=
  λ w, (Ok (dateNow env (clockReads w)), tickClock w).

Definition uuid : M string :=
  λ w, (Ok (uuidv4 env (uuidCalls w)), tickUuid w).

(** A call of the database client: it rejects when the store does not
    answer, and otherwise runs on the table. *)
Definition storeCall {A} (op : gmap string Order → Outcome A * gmap string Order)
    : M A :=
  λ w, match storeFault env (storeCalls w) with
       | Some message => (Throw (JsError message), tickStore w)
       | None =>
           let '(r, os) := op (orders w) in (r, setOrders os (tickStore w))
       end.

(** [prisma.order.findUnique({ where: { id } })] *)
Definition findUnique (orderId : string) : M (option Order) :=
  storeCall (λ os, (Ok (os !! orderId), os)).

(** [prisma.order.update({ where: { id }, data })]; it rejects when there is
    no such row. *)
Definition update (orderId : string) (data : Order → Order) : M Order :=
  storeCall (λ os,
    match os !! orderId with
    | Some o => (Ok (data o), <[orderId := data o]> os)
    | None => (Throw (JsError "Record to update not found."), os)
    end).

(** [prisma.order.create({ data })]; it rejects when the id is taken. *)
Definition create (o : Order) : M Order :=
  storeCall (λ os,
    match os !! id o with
    | Some _ => (Throw (JsError "Unique constraint failed on the fields: (`id`)"), os)
    | None => (Ok o, <[id o := o]> os)
    end).

(** [wsManager.broadcastOrderUpdate(order)] *)
Definition broadcastOrderUpdate (order : OrderState) : M unit :=
  ts <- newDate ;;
  λ w,
    let message :=
      {| m_type := "status_update"; m_orderId := s_id order;
         m_status := s_status order; m_order := order; m_timestamp := ts |} in
    let '(h, out) := broadcast message (hub w) in
    (Ok tt, setHub h (sent w ++ out) w).

(** The [try { JSON.parse } catch { [] }] block of [updateOrderStatus]. *)
Definition parseStatusHistory (column : HistoryColumn) : list StatusTransition :=
  match column with
  | HistJson h => h
  | HistFalsy | HistUnparsable | HistNotArray => []
  end.

(** The [data] object of the update in [updateOrderStatus], applied to the
    stored row; [order] is the row read at the start of the call. *)
Definition statusUpdateData (order : Order) (st : OrderStatus)
    (statusHistoryArray : list StatusTransition) (updates : Updates)
    (now : Z) (row : Order) : Order :=
  {| id := id row; tokenIn := tokenIn row; tokenOut := tokenOut row;
     amountIn := amountIn row;
     status := st;
     statusHistory := HistJson statusHistoryArray;
     dexUsed := from_option Some (dexUsed order) (u_dexUsed updates);
     executedPrice := from_option Some (executedPrice order) (u_executedPrice updates);
     txHash := from_option Some (txHash order) (u_txHash updates);
     failureReason := from_option Some (failureReason order) (u_failureReason updates);
     createdAt := createdAt row;
     updatedAt := now |}.

Definition updateOrderStatus (orderId : string) (st : OrderStatus)
    (updates : Updates) : M unit :=
  found <- findUnique orderId ;;
  match found with
  | None => throw (JsError ("Order " +:+ orderId +:+ " not found"))
  | Some order =>
      let statusHistoryArray := parseStatusHistory (statusHistory order) in
      ts <- newDate ;;
      let newTransition :=
        {| t_status := st; timestamp := ts; metadata := updates |} in
      let statusHistoryArray := statusHistoryArray ++ [newTransition] in
      now <- newDate ;;
      updatedOrder <-
        update orderId (statusUpdateData order st statusHistoryArray updates now) ;;
      broadcastOrderUpdate
        {| s_id := id updatedOrder; s_tokenIn := tokenIn updatedOrder;
           s_tokenOut := tokenOut updatedOrder;
           s_amountIn := amountIn updatedOrder;
           s_dexUsed := dexUsed updatedOrder;
           s_executedPrice := executedPrice updatedOrder;
           s_txHash := txHash updatedOrder;
           s_status := status updatedOrder;
           s_statusHistory := statusHistoryArray;
           s_failureReason := failureReason updatedOrder;
           s_createdAt := createdAt updatedOrder;
           s_updatedAt := updatedAt updatedOrder |}
  end.

(** [getBestQuote]: both sources are asked, then compared. *)
Definition getBestQuote (tIn tOut amount : string) : M DexQuote :=
  λ w,
    let k := quoteCalls w in
    (Ok (bestQuote (raydiumQuote (raydiumOut env k))
                   (meteoraQuote (meteoraOut env k))),
     tickQuote w).

(** [randomHex(length)], at the [k]-th swap. *)
Definition randomHex (length k : nat) : string :=
  randomHexOf length (randomIndex env k).

(** [executeSwap]: ["0x" + this.randomHex(64)]. *)
Definition executeSwap (dexName tIn tOut amount : string) : M string :=
  λ w, (Ok ("0x" +:+ randomHex 64 (swapCalls w)), tickSwap w).

(** The processor of [orderWorker]: one attempt at a job. The delays only
    let time pass, which the clock oracle accounts for. *)
Definition orderWorker (job : OrderJobData) : M string :=
  tryCatch
    (updateOrderStatus (orderId job) routing noUpdates ;;;
     bestQ <- getBestQuote (j_tokenIn job) (j_tokenOut job) (j_amountIn job) ;;
     updateOrderStatus (orderId job) building
       {| u_dexUsed := Some (dex bestQ); u_executedPrice := Some (price bestQ);
          u_txHash := None; u_failureReason := None |} ;;;
     updateOrderStatus (orderId job) submitted
       {| u_dexUsed := Some (dex bestQ); u_executedPrice := Some (price bestQ);
          u_txHash := None; u_failureReason := None |} ;;;
     hash <- executeSwap (dex bestQ) (j_tokenIn job) (j_tokenOut job)
               (j_amountIn job) ;;
     updateOrderStatus (orderId job) confirmed
       {| u_dexUsed := Some (dex bestQ); u_executedPrice := Some (price bestQ);
          u_txHash := Some hash; u_failureReason := None |} ;;;
     ret hash)
    (λ error,
       updateOrderStatus (orderId job) failed
         {| u_dexUsed := None; u_executedPrice := None; u_txHash := None;
            u_failureReason := Some (errorMessage error) |} ;;;
       throw error).

(** Modelled from the spec: the retry policy of the queue library, which is
    not part of the sources. "On handler failure, re-activate the same job up
    to maxAttempts"; "each retry restarts the job from step 1 of the Worker
    loop". The result is that of the last attempt made. *)
Fixpoint runJob (attemptsLeft : nat) (job : OrderJobData) : M string :=
  match attemptsLeft with
  | 0%nat => throw (JsError "no attempts left")
  | S n =>
      tryCatch (orderWorker job)
        (λ error, match n with 0%nat => throw error | _ => runJob n job end)
  end.

(** Modelled from the spec: a job that is "already waiting or active". *)
Definition isLive (j : Job) : bool :=
  match jobState j with
  | job_waiting | job_active => true
  | _ => false
  end.

(** Modelled from the spec: [Queue.add] of the queue library, which is not
    part of the sources. "If a job with the same orderId is already waiting
    or active, returns the existing handle rather than creating a duplicate;
    otherwise creates a new job in waiting state." The handle is the job
    record; a new job takes the default options of [orderQueue]
    ([attempts: 3], exponential backoff from 2000 ms). *)
Definition queueAdd (name : string) (data : OrderJobData) (jid : string)
    : M Job :=
  λ w,
    let fresh :=
      {| jobId := jid; jobName := name; jobData := data;
         attempts := 3; backoffDelay := 2000;
         jobState := job_waiting; attemptsMade := 0 |} in
    match jobs w !! jid with
    | Some j =>
        if isLive j then (Ok j, w)
        else (Ok fresh, setJobs (<[jid := fresh]> (jobs w)) w)
    | None => (Ok fresh, setJobs (<[jid := fresh]> (jobs w)) w)
    end.

(** A call of the queue: its promise rejects when the connection of the queue
    does not answer, and the job table is then left alone; otherwise the call
    runs on the table. *)
Definition queueCall {A} (op : M A) : M A :=
  λ w, match queueFault env (queueCalls w) with
       | Some message => (Throw (JsError message), tickQueue w)
       | None => op (tickQueue w)
       end.

(** [addOrderToQueue] ([queue/orderQueue.ts]): it awaits [orderQueue.add],
    with the order id as the job id, and returns the job. *)
Definition addOrderToQueue (data : OrderJobData) : M Job :=
  queueCall (queueAdd "execute-order" data (orderId data)).

(** [executeOrder] ([controllers/orderController.ts]). The row gets its
    [createdAt] and [updatedAt] from the store when it is inserted. *)
Definition executeOrder (body : RequestBody) : M Reply :=
  tryCatch
    (match safeParse body with
     | inr issues => ret (Reply400Validation issues)
     | inl data =>
         if decide (r_orderType data ≠ "market") then ret Reply400OnlyMarket
         else
           oid <- uuid ;;
           ts <- newDate ;;
           let initialStatusHistory :=
             [ {| t_status := pending; timestamp := ts; metadata := noUpdates |} ] in
           insertedAt <- newDate ;;
           order <- create
             {| id := oid; tokenIn := r_tokenIn data; tokenOut := r_tokenOut data;
                amountIn := r_amountIn data; status := pending;
                statusHistory := HistJson initialStatusHistory;
                dexUsed := None; executedPrice := None; txHash := None;
                failureReason := None;
                createdAt := insertedAt; updatedAt := insertedAt |} ;;
           addOrderToQueue
             {| orderId := oid; j_tokenIn := r_tokenIn data;
                j_tokenOut := r_tokenOut data; j_amountIn := r_amountIn data |} ;;;
           ret (Reply201
                  {| o_orderId := id order; o_status := status order;
                     o_tokenIn := tokenIn order; o_tokenOut := tokenOut order;
                     o_amountIn := amountIn order; o_createdAt := createdAt order |})
     end)
    (λ error, ret (Reply500 (errorMessage error))).

End Program.

(** ** Vocabulary of the properties *)

(** The row that a successful [updateOrderStatus] writes over [o], when the
    clock has been read [c] times before the call. *)
Definition transitionEntry (env : Env) (c : nat) (st : OrderStatus)
    (updates : Updates) : StatusTransition :=
  {| t_status := st; timestamp := dateNow env c; metadata := updates |}.

Definition transitionRow (env : Env) (c : nat) (o : Order) (st : OrderStatus)
    (updates : Updates) : Order :=
  statusUpdateData o st
    (parseStatusHistory (statusHistory o) ++ [transitionEntry env c st updates])
    updates (dateNow env (S c)) o.

(** What a call of [updateOrderStatus] leaves alone. *)
Record sameCounters (w w' : World) : Prop := {
  same_jobs : jobs w' = jobs w;
  same_quotes : quoteCalls w' = quoteCalls w;
  same_swaps : swapCalls w' = swapCalls w;
  same_uuids : uuidCalls w' = uuidCalls w;
}.

(** The [updates] objects of the worker. *)
Definition quoteUpdates (q : DexQuote) (hash : option string) : Updates :=
  {| u_dexUsed := Some (dex q); u_executedPrice := Some (price q);
     u_txHash := hash; u_failureReason := None |}.

Definition failureUpdates (reason : string) : Updates :=
  {| u_dexUsed := None; u_executedPrice := None; u_txHash := None;
     u_failureReason := Some reason |}.

(** The row after an attempt that went through, started on row [o] when the
    clock had been read [c] times. *)
Definition completedRow (env : Env) (c : nat) (o : Order) (q : DexQuote)
    (hash : string) : Order :=
  transitionRow env (9 + c)
    (transitionRow env (6 + c)
      (transitionRow env (3 + c)
        (transitionRow env c o routing noUpdates)
        building (quoteUpdates q None))
      submitted (quoteUpdates q None))
    confirmed (quoteUpdates q (Some hash)).

(** The world [w] differs from the table [os] in the row of [oid] only, which
    is [row], and its clock has been read [c] times. *)
Definition tracks (oid : string) (os : gmap string Order) (w : World)
    (c : nat) (row : Order) : Prop :=
  orders w = <[oid := row]> os ∧ clockReads w = c.



Definition clockMonotone (env : Env) : Prop :=
  ∀ i j, (i ≤ j)%nat → (dateNow env i ≤ dateNow env j)%Z.



(** The statuses of a stored history, as the worker re-loads it. *)
Definition historyStatuses (o : Order) : list OrderStatus :=
  t_status <$> parseStatusHistory (statusHistory o).

Definition historyTimestamps (o : Order) : list Z :=
  timestamp <$> parseStatusHistory (statusHistory o).

(** The transition rule in the words of the specification: "a transition is
    valid only if it moves strictly forward along the canonical path, or moves
    to failed from any state other than confirmed/failed". The sources have
    no counterpart of it. *)
Definition pathRank (st : OrderStatus) : option nat :=
  match st with
  | pending => Some 0%nat
  | routing => Some 1%nat
  | building => Some 2%nat
  | submitted => Some 3%nat
  | confirmed => Some 4%nat
  | failed => None
  end.

Definition isTerminal (st : OrderStatus) : bool :=
  match st with confirmed | failed => true | _ => false end.

Definition spec_validTransition (from to : OrderStatus) : bool :=
  match to with
  | failed => negb (isTerminal from)
  | _ =>
      match pathRank from, pathRank to with
      | Some a, Some b => (a <? b)%nat
      | _, _ => false
      end
  end.

(** The amounts in the words of the specification, "decimal-string quantity,
    must parse as a non-negative number": an unsigned decimal numeral with an
    optional fraction. [spec_parseDecimal s] is its value [n / 10^k] as [(n, k)]. *)
Definition spec_parseDecimal (s : string) : option (Z * nat) :=
  let '(ip, ni, rest) := readDigits s 0%Z 0%nat in
  if decide (ni = 0%nat) then None
  else
    match rest with
    | EmptyString => Some (ip, 0%nat)
    | String c rest' =>
        if bool_decide (c = "."%char) then
          let '(m, nf, rest'') := readDigits rest' ip 0%nat in
          if decide (nf = 0%nat) then None
          else match rest'' with EmptyString => Some (m, nf) | _ => None end
        else None
    end.

Definition spec_amountParses (v : JsValue) : bool :=
  match v with
  | JsString s => bool_decide (is_Some (spec_parseDecimal s))
  | _ => false
  end.

(** The language of a regular expression, on lists of characters. *)
Inductive lang : regex → list ascii → Prop :=
  | lang_eps : lang Eps []
  | lang_class p c : p c = true → lang (Class p) [c]
  | lang_cat r1 r2 s1 s2 : lang r1 s1 → lang r2 s2 → lang (Cat r1 r2) (s1 ++ s2)
  | lang_alt_l r1 r2 s : lang r1 s → lang (Alt r1 r2) s
  | lang_alt_r r1 r2 s : lang r2 s → lang (Alt r1 r2) s
  | lang_star_nil r : lang (Star r) []
  | lang_star_cons r s1 s2 :
      lang r s1 → lang (Star r) s2 → lang (Star r) (s1 ++ s2).

Fixpoint chars (s : string) : list ascii :=
  match s with
  | EmptyString => []
  | String c s' => c :: chars s'
  end.

Fixpoint unchars (l : list ascii) : string :=
  match l with
  | [] => EmptyString
  | c :: l' => String c (unchars l')
  end.

(** A run of decimal digits, and a text on which [readDigits] stops at once. *)
Definition allDigits (l : list ascii) : Prop := Forall (λ c, isDigit c = true) l.

Definition headNotDigit (s : string) : Prop :=
  match s with
  | EmptyString => True
  | String c _ => isDigit c = false
  end.

(** The shape of a decimal numeral: digits, optionally a point and digits. *)
Definition decimalShape (l : list ascii) : Prop :=
  ∃ ip, ip ≠ [] ∧ allDigits ip ∧
        (l = ip ∨ ∃ fp, fp ≠ [] ∧ allDigits fp ∧ l = ip ++ "."%char :: fp).

(** The hub, as a broadcast sees it. *)
Definition subscribers (h : WebSocketManager) (oid : string) : list string :=
  default [] (orderClients h !! oid).

Definition canSend (h : WebSocketManager) (clientId : string) : bool :=
  match clients h !! clientId with
  | Some ws => bool_decide (readyState ws = 1%nat) && negb (sendThrows ws)
  | None => false
  end.

(** The connections that a broadcast drops, one after the other. *)
Definition unregisterAll (l : list string) (h : WebSocketManager)
    : WebSocketManager :=
  foldl (λ h clientId, unregisterClient clientId h) h l.

(** Every subscriber set is duplicate-free, as a [Set] is. *)
Definition hubWf (h : WebSocketManager) : Prop :=
  ∀ oid s, orderClients h !! oid = Some s → NoDup s.

(** Modelled from the spec: a worker picking the job up, "waiting → active";
    the queue library that does it is not part of the sources. *)
Definition activate (jid : string) (w : World) : World :=
  match jobs w !! jid with
  | Some j =>
      setJobs (<[jid := {| jobId := jobId j; jobName := jobName j;
                           jobData := jobData j; attempts := attempts j;
                           backoffDelay := backoffDelay j;
                           jobState := job_active;
                           attemptsMade := attemptsMade j |}]> (jobs w)) w
  | None => w
  end.

(** The job table is keyed by job id. *)
Definition jobsWf (w : World) : Prop :=
  ∀ k j, jobs w !! k = Some j → jobId j = k.

(** An order marked failed carries its reason: the last history entry is the
    [failed] one, and its reason is the order's and is not empty. *)
Definition failedHasReason (o : Order) : Prop :=
  status o = failed →
  ∃ e r, last (parseStatusHistory (statusHistory o)) = Some e ∧
         t_status e = failed ∧
         u_failureReason (metadata e) = Some r ∧
         failureReason o = Some r ∧ r ≠ "".

(** ** Sample data *)

Definition t0 : Z := 1700000000000.

(** A clock that advances by a second per reading, a store and a queue that
    always answer, and two sources that quote the same amount. *)
Definition envCalm : Env :=
  {| dateNow := λ k, (t0 + 1000 * Z.of_nat k)%Z;
     storeFault := λ _, None;
     raydiumOut := λ _, "105.00000000";
     meteoraOut := λ _, "105.00000000";
     randomIndex := λ k i, ((i + k) mod 16)%nat;
     uuidv4 := λ _, "order-2";
     queueFault := λ _, None |}.

(** The same, but the store does not answer its third call. *)
Definition envOutage : Env :=
  {| dateNow := dateNow envCalm;
     storeFault := λ k, if decide (k = 2%nat) then Some "Can't reach database server" else None;
     raydiumOut := λ _, "110";
     meteoraOut := λ _, "105";
     randomIndex := randomIndex envCalm;
     uuidv4 := uuidv4 envCalm;
     queueFault := queueFault envCalm |}.

(** The same, but the store does not answer its third and fourth calls. *)
Definition envBlackout : Env :=
  {| dateNow := dateNow envCalm;
     storeFault := λ k, if bool_decide (k = 2 ∨ k = 3)%nat
                        then Some "Can't reach database server" else None;
     raydiumOut := λ _, "110";
     meteoraOut := λ _, "105";
     randomIndex := randomIndex envCalm;
     uuidv4 := uuidv4 envCalm;
     queueFault := queueFault envCalm |}.

Definition pendingEntry : StatusTransition :=
  {| t_status := pending; timestamp := (t0 - 5000)%Z; metadata := noUpdates |}.

Definition order1 : Order :=
  {| id := "order-1"; tokenIn := "SOL"; tokenOut := "USDC"; amountIn := "100";
     status := pending; statusHistory := HistJson [pendingEntry];
     dexUsed := None; executedPrice := None; txHash := None;
     failureReason := None;
     createdAt := (t0 - 5000)%Z; updatedAt := (t0 - 5000)%Z |}.

Definition job1 : OrderJobData :=
  {| orderId := "order-1"; j_tokenIn := "SOL"; j_tokenOut := "USDC";
     j_amountIn := "100" |}.

Definition openSocket : WebSocket := {| readyState := 1; sendThrows := false |}.
Definition closedSocket : WebSocket := {| readyState := 3; sendThrows := false |}.
Definition brokenSocket : WebSocket := {| readyState := 1; sendThrows := true |}.

(** Three observers of [order-1]: the second one's [send] throws. *)
Definition hub1 : WebSocketManager :=
  subscribeToOrder "client-3" "order-1"
    (subscribeToOrder "client-2" "order-1"
      (subscribeToOrder "client-1" "order-1"
        (registerClient "client-3" openSocket
          (registerClient "client-2" brokenSocket
            (registerClient "client-1" openSocket newWebSocketManager))))).

Definition world1 : World :=
  {| orders := {[ "order-1" := order1 ]}; jobs := ∅; hub := hub1; sent := [];
     clockReads := 0; storeCalls := 0; quoteCalls := 0; swapCalls := 0;
     uuidCalls := 0; queueCalls := 0 |}.

(** An order whose stored history was damaged: the text is cut short. *)
Definition orderGarbled : Order :=
  {| id := "order-1"; tokenIn := "SOL"; tokenOut := "USDC"; amountIn := "100";
     status := routing; statusHistory := HistUnparsable;
     dexUsed := None; executedPrice := None; txHash := None;
     failureReason := None;
     createdAt := (t0 - 5000)%Z; updatedAt := (t0 - 2000)%Z |}.

Definition worldGarbled : World := setOrders {[ "order-1" := orderGarbled ]} world1.

(** The world after [order-1] went through a whole attempt. *)
Definition worldDone : World := (orderWorker envCalm job1 world1).2.

(** The notification of [order-1] entering [routing]. *)
Definition message1 : WebSocketMessage :=
  {| m_type := "status_update"; m_orderId := "order-1"; m_status := routing;
     m_order :=
       {| s_id := "order-1"; s_tokenIn := "SOL"; s_tokenOut := "USDC";
          s_amountIn := "100"; s_dexUsed := None; s_executedPrice := None;
          s_txHash := None; s_status := routing;
          s_statusHistory := [pendingEntry; transitionEntry envCalm 0 routing noUpdates];
          s_failureReason := None;
          s_createdAt := (t0 - 5000)%Z; s_updatedAt := (t0 + 1000)%Z |};
     m_timestamp := (t0 + 2000)%Z |}.

(** A request for a limit order, and one whose amount is signed. *)
Definition bodyLimit : RequestBody :=
  {| b_tokenIn := JsString "SOL"; b_tokenOut := JsString "USDC";
     b_amountIn := JsString "100"; b_orderType := JsString "limit" |}.

Definition bodyNegative : RequestBody :=
  {| b_tokenIn := JsString "SOL"; b_tokenOut := JsString "USDC";
     b_amountIn := JsString "-5"; b_orderType := JsUndefined |}.

Definition bodyValid : RequestBody :=
  {| b_tokenIn := JsString "SOL"; b_tokenOut := JsString "USDC";
     b_amountIn := JsString "100.5"; b_orderType := JsUndefined |}.

(** The world after the attempt during which the store did not answer. *)
Definition worldFailed : World := (orderWorker envOutage job1 world1).2.

(** ** More of the sources *)

(** The calls a hub receives over its life. *)
Inductive HubOp :=
  | OpRegister (clientId : string) (ws : WebSocket)
  | OpSubscribe (clientId orderId : string)
  | OpUnregister (clientId : string)
  | OpBroadcast (message : WebSocketMessage).

Definition applyHubOp (h : WebSocketManager) (op : HubOp) : WebSocketManager :=
  match op with
  | OpRegister c ws => registerClient c ws h
  | OpSubscribe c oid => subscribeToOrder c oid h
  | OpUnregister c => unregisterClient c h
  | OpBroadcast message => (broadcast message h).1
  end.

(** The singleton [wsManager] after a sequence of calls. *)
Definition runHub (ops : list HubOp) : WebSocketManager :=
  foldl applyHubOp newWebSocketManager ops.

(** No order is kept with an empty subscriber set. *)
Definition noEmptySets (h : WebSocketManager) : Prop :=
  ∀ oid s, orderClients h !! oid = Some s → s ≠ [].

(** The messages that went out on the handle of [clientId]. *)
Definition receivedBy (clientId : string)
    (out : list (string * WebSocketMessage)) : list WebSocketMessage :=
  snd <$> filter (λ p, p.1 = clientId) out.

(** The message that a successful [updateOrderStatus] broadcasts, for the row
    [o] read at the start, when the clock has been read [c] times before the
    call: the third reading stamps the message. *)
Definition statusMessage (env : Env) (c : nat) (o : Order) (st : OrderStatus)
    (updates : Updates) : WebSocketMessage :=
  let row := transitionRow env c o st updates in
  {| m_type := "status_update"; m_orderId := id row; m_status := status row;
     m_order :=
       {| s_id := id row; s_tokenIn := tokenIn row; s_tokenOut := tokenOut row;
          s_amountIn := amountIn row; s_dexUsed := dexUsed row;
          s_executedPrice := executedPrice row; s_txHash := txHash row;
          s_status := status row;
          s_statusHistory :=
            parseStatusHistory (statusHistory o)
              ++ [transitionEntry env c st updates];
          s_failureReason := failureReason row;
          s_createdAt := createdAt row; s_updatedAt := updatedAt row |};
     m_timestamp := dateNow env (2 + c) |}.

(** The client listens to the order: it is subscribed, in a duplicate-free
    set, and its handle can be sent to. *)
Definition listening (c oid : string) (h : WebSocketManager) : Prop :=
  NoDup (subscribers h oid) ∧ c ∈ subscribers h oid ∧ canSend h c = true.


(** The world after a valid request was accepted, and the job it queued. *)
Definition worldSubmitted : World := (executeOrder envCalm bodyValid world1).2.

Definition job2 : OrderJobData :=
  {| orderId := "order-2"; j_tokenIn := "SOL"; j_tokenOut := "USDC";
     j_amountIn := "100.5" |}.

Definition jobUnknown : OrderJobData :=
  {| orderId := "order-404"; j_tokenIn := "SOL"; j_tokenOut := "USDC";
     j_amountIn := "1" |}.


(** *** [getRedisClient] ([config/redis.ts]) *)

(** The [retryStrategy] of the client: [Math.min(times * 50, 2000)], on the
    number of the reconnection attempt. *)
Definition retryStrategy (times : Z) : Z := Z.min (times * 50) 2000.

(** *** The mock [Redis] of the tests ([unnamed/part_001]) *)

(** [this.data.get(key) || null]: a stored empty string is falsy. *)
Definition redisGet (key : string) (data : gmap string string) : option string :=
  match data !! key with
  | Some v => if decide (v = "") then None else Some v
  | None => None
  end.

Definition redisSet (key value : string) (data : gmap string string)
    : string * gmap string string :=
  ("OK", <[key := value]> data).

Definition redisDel (key : string) (data : gmap string string)
    : Z * gmap string string :=
  let existed := bool_decide (is_Some (data !! key)) in
  (if existed then 1%Z else 0%Z, delete key data).

Definition redisQuit (data : gmap string string) : string * gmap string string :=
  ("OK", ∅).

(** *** The shape of a transaction hash *)

Definition isLowerHex (c : ascii) : bool :=
  let n := nat_of_ascii c in
  isDigit c || ((97 <=? n)%nat && (n <=? 102)%nat).

(** [r{n}] *)
Fixpoint reRepeat (n : nat) (r : regex) : regex :=
  match n with
  | 0%nat => Eps
  | S n' => Cat r (reRepeat n' r)
  end.

(** [/^0x[0-9a-f]{64}$/], the shape the router's tests ask of a hash. *)
Definition txHashPattern : regex :=
  Cat (reChar "0") (Cat (reChar "x") (reRepeat 64 (Class isLowerHex))).

(** *** [getOrder] ([controllers/orderController.ts]) *)

Inductive OrderReply :=
  | OrderFound (order : Order)
  | OrderNotFound
  | OrderError (message : string).

Definition getOrder (env : Env) (oid : string) : M OrderReply :=
  tryCatch
    (found <- findUnique env oid ;;
     match found with
     | None => ret OrderNotFound
     | Some order => ret (OrderFound order)
     end)
    (λ error, ret (OrderError (errorMessage error))).

(** The row that [executeOrder] inserts for the parsed request [data], under
    the id [oid], when the clock has been read [c] times. *)
Definition createdRow (env : Env) (c : nat) (oid : string) (data : OrderRequest)
    : Order :=
  {| id := oid; tokenIn := r_tokenIn data; tokenOut := r_tokenOut data;
     amountIn := r_amountIn data; status := pending;
     statusHistory := HistJson [transitionEntry env c pending noUpdates];
     dexUsed := None; executedPrice := None; txHash := None;
     failureReason := None;
     createdAt := dateNow env (S c); updatedAt := dateNow env (S c) |}.


(** A queue that rejects every call. *)
Definition envQueueDown : Env :=
  {| dateNow := dateNow envCalm;
     storeFault := storeFault envCalm;
     raydiumOut := raydiumOut envCalm;
     meteoraOut := meteoraOut envCalm;
     randomIndex := randomIndex envCalm;
     uuidv4 := uuidv4 envCalm;
     queueFault := λ _, Some "Connection is closed." |}.

(** A store that rejects every call. *)
Definition envDown : Env :=
  {| dateNow := dateNow envCalm;
     storeFault := λ _, Some "Can't reach database server";
     raydiumOut := raydiumOut envCalm;
     meteoraOut := meteoraOut envCalm;
     randomIndex := randomIndex envCalm;
     uuidv4 := uuidv4 envCalm;
     queueFault := queueFault envCalm |}.

(** * Properties *)

(** ** The monad *)

Lemma bind_inv {A B} (m : M A) (k : A → M B) w out w' :
  bind m k w = (out, w') →
  (∃ a w1, m w = (Ok a, w1) ∧ k a w1 = (out, w')) ∨
  (∃ e, m w = (Throw e, w') ∧ out = Throw e).
Proof.
  unfold bind. destruct (m w) as [[a|e] w1]; intros H.
  - left. eauto.
  - right. inversion H; subst. eauto.
Qed.

Lemma bind_Ok_inv {A B} (m : M A) (k : A → M B) w b w' :
  bind m k w = (Ok b, w') →
  ∃ a w1, m w = (Ok a, w1) ∧ k a w1 = (Ok b, w').
Proof.
  intros H. apply bind_inv in H as [H|(e & _ & H)]; [done | discriminate].
Qed.

Lemma bind_run_Ok {A B} (m : M A) (k : A → M B) w a w1 :
  m w = (Ok a, w1) → bind m k w = k a w1.
Proof. unfold bind. by intros ->. Qed.

Lemma bind_run_Throw {A B} (m : M A) (k : A → M B) w e w1 :
  m w = (Throw e, w1) → bind m k w = (Throw e, w1).
Proof. unfold bind. by intros ->. Qed.

Lemma tryCatch_inv {A} (body : M A) (handler : Thrown → M A) w out w' :
  tryCatch body handler w = (out, w') →
  (∃ a, body w = (Ok a, w') ∧ out = Ok a) ∨
  (∃ e w1, body w = (Throw e, w1) ∧ handler e w1 = (out, w')).
Proof.
  unfold tryCatch. destruct (body w) as [[a|e] w1]; intros H.
  - left. inversion H; subst. eauto.
  - right. eauto.
Qed.

(** ** One call of [updateOrderStatus] *)

Lemma broadcastOrderUpdate_run env order w :
  ∃ w', broadcastOrderUpdate env order w = (Ok tt, w') ∧
        orders w' = orders w ∧ clockReads w' = S (clockReads w) ∧
        storeCalls w' = storeCalls w ∧ sameCounters w w'.
Proof.
  unfold broadcastOrderUpdate, bind, newDate.
  destruct (broadcast _ _) as [h out] eqn:Hb.
  eexists. split; [reflexivity|]. simpl. by repeat split.
Qed.

(** A call that returns has read the row, written [transitionRow] over it with
    one [update], and read the clock three times. *)
Lemma updateOrderStatus_Ok env oid st upd w o :
  orders w !! oid = Some o →
  storeFault env (storeCalls w) = None →
  storeFault env (S (storeCalls w)) = None →
  ∃ w', updateOrderStatus env oid st upd w = (Ok tt, w') ∧
        orders w' = <[oid := transitionRow env (clockReads w) o st upd]> (orders w) ∧
        clockReads w' = (3 + clockReads w)%nat ∧
        storeCalls w' = (2 + storeCalls w)%nat ∧
        sameCounters w w'.
Proof.
  intros Ho F1 F2.
  unfold updateOrderStatus, findUnique, update, storeCall, newDate, bind.
  rewrite F1. simpl. rewrite Ho. simpl. rewrite F2, Ho.
  match goal with
  | |- context [broadcastOrderUpdate env ?s ?w0] =>
      destruct (broadcastOrderUpdate_run env s w0)
        as (w' & -> & Hos & Hc & Hs & [Hj Hq Hsw Hu])
  end.
  exists w'. simpl in *. split; [done|].
  rewrite Hos, Hc, Hs. by repeat split.
Qed.

(** Why a call throws: there is no such order, or the store rejected the last
    call made, the read or the write. In every case the order table is as it
    was. *)
Lemma updateOrderStatus_inv env oid st upd w out w' :
  updateOrderStatus env oid st upd w = (out, w') →
  (out = Ok tt ∧ ∃ o,
     orders w !! oid = Some o ∧
     storeFault env (storeCalls w) = None ∧
     storeFault env (S (storeCalls w)) = None ∧
     orders w' = <[oid := transitionRow env (clockReads w) o st upd]> (orders w) ∧
     clockReads w' = (3 + clockReads w)%nat ∧
     storeCalls w' = (2 + storeCalls w)%nat ∧
     sameCounters w w') ∨
  (∃ e, out = Throw e ∧ orders w' = orders w ∧
        (clockReads w ≤ clockReads w')%nat ∧
        (storeCalls w < storeCalls w')%nat ∧
        sameCounters w w' ∧
        (orders w !! oid = None ∧
           e = JsError ("Order " +:+ oid +:+ " not found") ∨
         ∃ msg, storeFault env (pred (storeCalls w')) = Some msg ∧
                e = JsError msg)).
Proof.
  destruct (storeFault env (storeCalls w)) as [msg1|] eqn:F1.
  { unfold updateOrderStatus, findUnique, storeCall, bind. rewrite F1.
    intros H; inversion H; subst. right. eexists. split; [done|]. simpl.
    repeat split; try lia. right. eauto. }
  destruct (orders w !! oid) as [o|] eqn:Ho.
  2:{ unfold updateOrderStatus, findUnique, storeCall, bind. rewrite F1. simpl.
      rewrite Ho. unfold throw. intros H; inversion H; subst. right.
      eexists. split; [done|]. simpl. repeat split; try lia. by left. }
  destruct (storeFault env (S (storeCalls w))) as [msg2|] eqn:F2.
  { unfold updateOrderStatus, findUnique, update, storeCall, newDate, bind.
    rewrite F1. simpl. rewrite Ho. simpl. rewrite F2.
    intros H; inversion H; subst. right. eexists. split; [done|]. simpl.
    repeat split; try lia. right. eauto. }
  destruct (updateOrderStatus_Ok env oid st upd w o Ho F1 F2)
    as (w1 & -> & Hos & Hc & Hs & Hsame).
  intros H; inversion H; subst. left. split; [done|]. exists o. done.
Qed.

Lemma transitionRow_history env c o st upd :
  parseStatusHistory (statusHistory (transitionRow env c o st upd)) =
  parseStatusHistory (statusHistory o) ++ [transitionEntry env c st upd].
Proof. reflexivity. Qed.

Lemma historyStatuses_transitionRow env c o st upd :
  historyStatuses (transitionRow env c o st upd) = historyStatuses o ++ [st].
Proof. unfold historyStatuses. rewrite transitionRow_history. by rewrite fmap_app. Qed.

(** The store rejects the read: the call throws at once. *)
Lemma updateOrderStatus_read_rejected env oid st upd w msg :
  storeFault env (storeCalls w) = Some msg →
  updateOrderStatus env oid st upd w = (Throw (JsError msg), tickStore w).
Proof.
  intros F1. unfold updateOrderStatus, findUnique, storeCall, bind.
  by rewrite F1.
Qed.

(** The store serves the read and rejects the update: the call throws, and
    nothing was written or sent. *)
Lemma updateOrderStatus_write_rejected env oid st upd w o msg :
  orders w !! oid = Some o →
  storeFault env (storeCalls w) = None →
  storeFault env (S (storeCalls w)) = Some msg →
  ∃ w', updateOrderStatus env oid st upd w = (Throw (JsError msg), w') ∧
        orders w' = orders w ∧ hub w' = hub w ∧ sent w' = sent w ∧
        storeCalls w' = (2 + storeCalls w)%nat.
Proof.
  intros Ho F1 F2.
  unfold updateOrderStatus, findUnique, update, storeCall, newDate, bind.
  rewrite F1. simpl. rewrite Ho. simpl. rewrite F2.
  eexists. split; [reflexivity|]. done.
Qed.


(** C1, as the code has it. A transition writes the history that the call
    re-loaded from the row plus exactly one entry, whose status is the new
    status; afterwards the last entry's status is the order's status. For a
    column that holds a JSON array that is the stored history extended by one
    entry; a column that is empty gives the entry alone, and so does a column
    that does not parse as an array, whose content is lost. The new status and
    the new history are written together by the one [update] that the call
    makes, its second store call: the first call only reads, and when the
    store rejects the second the call throws and the row has neither the new
    status nor the new entry. After every call the row is either as it was or
    carries both. *)
Theorem updateOrderStatus_appends_one_entry env oid st upd w o :
  orders w !! oid = Some o →
  ∃ o' entry,
    status o' = st ∧
    statusHistory o' =
      HistJson (parseStatusHistory (statusHistory o) ++ [entry]) ∧
    (∀ h, statusHistory o = HistJson h → statusHistory o' = HistJson (h ++ [entry])) ∧
    (statusHistory o = HistFalsy ∨ statusHistory o = HistUnparsable ∨
     statusHistory o = HistNotArray → statusHistory o' = HistJson [entry]) ∧
    t_status entry = st ∧
    metadata entry = upd ∧
    last (parseStatusHistory (statusHistory o')) = Some entry ∧
    t_status entry = status o' ∧
    (storeFault env (storeCalls w) = None →
     storeFault env (S (storeCalls w)) = None →
     ∃ w', updateOrderStatus env oid st upd w = (Ok tt, w') ∧
           orders w' = <[oid := o']> (orders w) ∧
           storeCalls w' = (2 + storeCalls w)%nat) ∧
    (∀ msg, storeFault env (storeCalls w) = None →
            storeFault env (S (storeCalls w)) = Some msg →
            ∃ w', updateOrderStatus env oid st upd w = (Throw (JsError msg), w') ∧
                  orders w' = orders w ∧ sent w' = sent w ∧
                  storeCalls w' = (2 + storeCalls w)%nat) ∧
    (∀ msg, storeFault env (storeCalls w) = Some msg →
            ∃ w', updateOrderStatus env oid st upd w = (Throw (JsError msg), w') ∧
                  orders w' = orders w ∧ sent w' = sent w ∧
                  storeCalls w' = (1 + storeCalls w)%nat) ∧
    (∀ out w', updateOrderStatus env oid st upd w = (out, w') →
               out ≠ Ok tt ∧ orders w' = orders w ∨
               out = Ok tt ∧ orders w' = <[oid := o']> (orders w)).
Proof.
  intros Ho.
  exists (transitionRow env (clockReads w) o st upd),
         (transitionEntry env (clockReads w) st upd).
  split; [done|]. split; [done|].
  split. { intros h Hh. simpl. by rewrite Hh. }
  split. { intros [Hh|[Hh|Hh]]; simpl; by rewrite Hh. }
  split; [done|]. split; [done|].
  split. { simpl. by rewrite last_snoc. }
  split; [done|].
  split.
  { intros F1 F2.
    destruct (updateOrderStatus_Ok env oid st upd w o Ho F1 F2)
      as (w' & Hrun & Hos & _ & Hs & _). eauto. }
  split.
  { intros msg F1 F2.
    destruct (updateOrderStatus_write_rejected env oid st upd w o msg Ho F1 F2)
      as (w' & Hrun & Hos & _ & Hsent & Hs). eauto. }
  split.
  { intros msg F1. rewrite (updateOrderStatus_read_rejected _ _ _ _ _ _ F1).
    eauto. }
  intros out w' Hrun.
  apply updateOrderStatus_inv in Hrun
    as [(-> & o1 & Ho1 & _ & _ & Hos & _)|(e & -> & Hos & _)].
  - right. rewrite Ho in Ho1. injection Ho1 as <-. done.
  - left. done.
Qed.

Lemma updateOrderStatus_appends_one_entry_witness :
  ∃ o' entry,
    status o' = routing ∧
    statusHistory o' = HistJson ([pendingEntry] ++ [entry]) ∧
    t_status entry = routing ∧
    (∃ w', updateOrderStatus envCalm "order-1" routing noUpdates world1 = (Ok tt, w') ∧
           orders w' = <["order-1" := o']> (orders world1)) ∧
    (∃ w', updateOrderStatus envOutage "order-1" routing noUpdates
             (tickStore world1) =
             (Throw (JsError "Can't reach database server"), w') ∧
           orders w' = orders world1).
Proof.
  destruct (updateOrderStatus_appends_one_entry envCalm "order-1" routing
              noUpdates world1 order1 eq_refl)
    as (o' & entry & Hst & _ & Hh & _ & Hes & _ & _ & _ & Hok & _).
  destruct (Hok eq_refl eq_refl) as (w' & Hrun & Hos & _).
  exists o', entry. split; [exact Hst|].
  split; [exact (Hh [pendingEntry] eq_refl)|]. split; [exact Hes|].
  split; [by exists w'|].
  destruct (updateOrderStatus_appends_one_entry envOutage "order-1" routing
              noUpdates (tickStore world1) order1 eq_refl)
    as (_ & _ & _ & _ & _ & _ & _ & _ & _ & _ & _ & Hrej & _).
  destruct (Hrej "Can't reach database server" eq_refl eq_refl)
    as (w2 & Hrun2 & Hos2 & _).
  by exists w2.
Defined.

(** A row whose stored history was cut short: the order is [routing], the
    transition to [building] goes through, and the history written holds the
    [building] entry alone. What was stored is not extended but replaced, and
    the first entry of the history is not [pending]. *)
Lemma updateOrderStatus_discards_unparsable_history :
  orders worldGarbled !! "order-1" = Some orderGarbled ∧
  status orderGarbled = routing ∧
  statusHistory orderGarbled = HistUnparsable ∧
  (updateOrderStatus envCalm "order-1" building noUpdates worldGarbled).1 = Ok tt ∧
  statusHistory <$>
    orders (updateOrderStatus envCalm "order-1" building noUpdates worldGarbled).2
      !! "order-1" =
    Some (HistJson [transitionEntry envCalm 0 building noUpdates]) ∧
  historyStatuses <$>
    orders (updateOrderStatus envCalm "order-1" building noUpdates worldGarbled).2
      !! "order-1" = Some [building].
Proof. vm_compute. repeat split; reflexivity. Qed.

(** C10. When the stored history does not parse as a JSON array (the text is
    malformed, or its parse is not an array), [updateOrderStatus] does not
    throw: it writes a history that holds the new entry alone, whatever the
    column held before. *)
Theorem updateOrderStatus_resets_malformed_history env oid st upd w o :
  orders w !! oid = Some o →
  statusHistory o = HistUnparsable ∨ statusHistory o = HistNotArray →
  storeFault env (storeCalls w) = None →
  storeFault env (S (storeCalls w)) = None →
  ∃ w' o',
    updateOrderStatus env oid st upd w = (Ok tt, w') ∧
    orders w' !! oid = Some o' ∧
    status o' = st ∧
    statusHistory o' = HistJson [transitionEntry env (clockReads w) st upd].
Proof.
  intros Ho Hbad F1 F2.
  destruct (updateOrderStatus_Ok env oid st upd w o Ho F1 F2)
    as (w' & Hrun & Hos & _).
  exists w', (transitionRow env (clockReads w) o st upd).
  split; [done|]. split; [by rewrite Hos, lookup_insert_eq|]. split; [done|].
  simpl. by destruct Hbad as [-> | ->].
Qed.

Lemma updateOrderStatus_resets_malformed_history_witness :
  ∃ w' o',
    updateOrderStatus envCalm "order-1" building noUpdates worldGarbled = (Ok tt, w') ∧
    orders w' !! "order-1" = Some o' ∧
    status o' = building ∧
    statusHistory o' =
      HistJson [transitionEntry envCalm (clockReads worldGarbled) building noUpdates].
Proof.
  apply (updateOrderStatus_resets_malformed_history envCalm "order-1" building
           noUpdates worldGarbled orderGarbled);
    [reflexivity | left; reflexivity | reflexivity | reflexivity].
Defined.

(** C2, as the code has it. [updateOrderStatus] does not look at the current
    status: for every stored order, terminal or not, and every requested
    status, the call goes through whenever the store answers, overwrites the
    status and appends the entry. It throws only when the order is missing or
    the store rejects a call, and then the order table is left as it was. *)
Theorem updateOrderStatus_accepts_any_transition env oid st upd w :
  (∀ o, orders w !! oid = Some o →
        storeFault env (storeCalls w) = None →
        storeFault env (S (storeCalls w)) = None →
        ∃ w' o', updateOrderStatus env oid st upd w = (Ok tt, w') ∧
                 orders w' !! oid = Some o' ∧
                 status o' = st ∧
                 historyStatuses o' = historyStatuses o ++ [st]) ∧
  (∀ e w', updateOrderStatus env oid st upd w = (Throw e, w') →
           orders w' = orders w ∧
           (orders w !! oid = None ∧
              e = JsError ("Order " +:+ oid +:+ " not found") ∨
            ∃ msg, storeFault env (pred (storeCalls w')) = Some msg ∧
                   e = JsError msg)).
Proof.
  split.
  - intros o Ho F1 F2.
    destruct (updateOrderStatus_Ok env oid st upd w o Ho F1 F2)
      as (w' & Hrun & Hos & _).
    exists w', (transitionRow env (clockReads w) o st upd).
    split; [done|]. split; [by rewrite Hos, lookup_insert_eq|]. split; [done|].
    apply historyStatuses_transitionRow.
  - intros e w' Hrun.
    apply updateOrderStatus_inv in Hrun as [[? _]|(e' & [= <-] & Hos & _ & _ & _ & Hwhy)];
      [discriminate | done].
Qed.

Lemma updateOrderStatus_accepts_any_transition_witness :
  ∃ w' o', updateOrderStatus envCalm "order-1" pending noUpdates worldDone = (Ok tt, w') ∧
           orders w' !! "order-1" = Some o' ∧
           status o' = pending ∧
           historyStatuses o' =
             [pending; routing; building; submitted; confirmed] ++ [pending].
Proof.
  refine (proj1 (updateOrderStatus_accepts_any_transition envCalm "order-1"
                   pending noUpdates worldDone)
                (transitionRow envCalm 9 (transitionRow envCalm 6
                   (transitionRow envCalm 3 (transitionRow envCalm 0 order1
                      routing noUpdates) building
                      {| u_dexUsed := Some "meteora";
                         u_executedPrice := Some "105.00000000";
                         u_txHash := None; u_failureReason := None |})
                   submitted
                      {| u_dexUsed := Some "meteora";
                         u_executedPrice := Some "105.00000000";
                         u_txHash := None; u_failureReason := None |})
                   confirmed
                      {| u_dexUsed := Some "meteora";
                         u_executedPrice := Some "105.00000000";
                         u_txHash := Some ("0x" +:+ randomHex envCalm 64 0);
                         u_failureReason := None |})
                _ _ _); vm_compute; reflexivity.
Defined.

(** The transition [confirmed → routing] is not one the rule of the
    specification allows, yet on a confirmed order the call returns normally,
    the status becomes [routing] and the history grows: no error is raised
    and the order does not stay as it was. *)
Lemma updateOrderStatus_overwrites_confirmed :
  spec_validTransition confirmed routing = false ∧
  status <$> orders worldDone !! "order-1" = Some confirmed ∧
  (updateOrderStatus envCalm "order-1" routing noUpdates worldDone).1 = Ok tt ∧
  status <$>
    orders (updateOrderStatus envCalm "order-1" routing noUpdates worldDone).2
      !! "order-1" = Some routing ∧
  historyStatuses <$>
    orders (updateOrderStatus envCalm "order-1" routing noUpdates worldDone).2
      !! "order-1" =
    Some [pending; routing; building; submitted; confirmed; routing].
Proof. vm_compute. repeat split; reflexivity. Qed.

(** ** The comparison of quotes *)

Lemma SFcompare_antisym x y : SFcompare y x = CompOpp <$> SFcompare x y.
Proof.
  destruct x as [sx|sx| |sx mx ex], y as [sy|sy| |sy my ey]; simpl;
    try reflexivity; try (by destruct sx); try (by destruct sy);
    try (by destruct sx, sy).
  destruct sx, sy; simpl; try reflexivity;
    rewrite (Z.compare_antisym ex ey); destruct (ex ?= ey)%Z; simpl;
    try reflexivity;
    change (Pos.compare_cont Eq my mx) with (my ?= mx)%positive;
    change (Pos.compare_cont Eq mx my) with (mx ?= my)%positive;
    rewrite (Pos.compare_antisym mx my); by destruct (mx ?= my)%positive.
Qed.

Lemma jsGt_asym a b : jsGt a b = true → jsGt b a = false.
Proof.
  unfold jsGt, SFltb. rewrite (SFcompare_antisym b a).
  by destruct (SFcompare b a) as [[]|].
Qed.

Lemma jsGt_irrefl a : jsGt a a = false.
Proof.
  destruct (jsGt a a) eqn:H; [|done]. by rewrite (jsGt_asym _ _ H) in H.
Qed.

Lemma jsEq_not_jsGt a b : jsEq a b = true → jsGt a b = false.
Proof.
  unfold jsEq, jsGt, SFeqb, SFltb. rewrite (SFcompare_antisym a b).
  by destruct (SFcompare a b) as [[]|].
Qed.

Lemma getBestQuote_run env tIn tOut amount w :
  getBestQuote env tIn tOut amount w =
  (Ok (bestQuote (raydiumQuote (raydiumOut env (quoteCalls w)))
                 (meteoraQuote (meteoraOut env (quoteCalls w)))),
   tickQuote w).
Proof. reflexivity. Qed.

Lemma jsGt_compare a b : jsGt a b = true ↔ SFcompare a b = Some Gt.
Proof.
  unfold jsGt, SFltb. rewrite (SFcompare_antisym a b).
  destruct (SFcompare a b) as [[]|]; simpl; split; congruence.
Qed.

Lemma SFcompare_nan_l b : SFcompare S754_nan b = None.
Proof. by destruct b. Qed.

Lemma SFcompare_nan_r a : SFcompare a S754_nan = None.
Proof. by destruct a as [[]|[]| |]. Qed.

(** C3, as the code has it. [getBestQuote] returns one of the two quotes: the
    first source's (Raydium) exactly when its [amountOut] is strictly greater
    as a number, and the second source's (Meteora) in every other case, that
    is when Meteora's is greater, when the two are equal, and when they do not
    compare because one of them is not a number. Either way no quote has an
    [amountOut] strictly greater than that of the quote returned. *)
Theorem bestQuote_greatest_tie_to_second env (tIn tOut amount : string)
    (w : World) :
  let raydium := raydiumQuote (raydiumOut env (quoteCalls w)) in
  let meteora := meteoraQuote (meteoraOut env (quoteCalls w)) in
  let a := parseFloat (amountOut raydium) in
  let b := parseFloat (amountOut meteora) in
  ∃ best,
    getBestQuote env tIn tOut amount w = (Ok best, tickQuote w) ∧
    (best = raydium ↔ SFcompare a b = Some Gt) ∧
    (best = meteora ↔ SFcompare a b ≠ Some Gt) ∧
    (jsGt a b = true → best = raydium) ∧
    (jsGt b a = true → best = meteora) ∧
    (jsEq a b = true → best = meteora) ∧
    (a = S754_nan ∨ b = S754_nan → best = meteora) ∧
    jsGt a (parseFloat (amountOut best)) = false ∧
    jsGt b (parseFloat (amountOut best)) = false.
Proof.
  intros raydium meteora a b.
  exists (bestQuote raydium meteora). split; [apply getBestQuote_run|].
  assert (Hne : raydium ≠ meteora) by discriminate.
  unfold bestQuote. fold a b.
  pose proof (jsGt_compare a b) as Hcmp.
  destruct (jsGt a b) eqn:Hab.
  - assert (Hgt : SFcompare a b = Some Gt) by by apply Hcmp.
    split; [done|]. split; [split; [congruence | by intros []]|].
    split; [done|].
    split. { intros Hba. by rewrite (jsGt_asym _ _ Hab) in Hba. }
    split. { intros Heq. by rewrite (jsEq_not_jsGt _ _ Heq) in Hab. }
    split. { intros [Hn|Hn]; rewrite Hn in Hgt;
             [by rewrite SFcompare_nan_l in Hgt | by rewrite SFcompare_nan_r in Hgt]. }
    split; [apply jsGt_irrefl | by apply jsGt_asym].
  - assert (Hngt : SFcompare a b ≠ Some Gt).
    { intros Hgt. apply Hcmp in Hgt. congruence. }
    split; [split; [congruence | done]|]. split; [done|].
    split; [done|]. split; [done|]. split; [done|]. split; [done|].
    split; [done | apply jsGt_irrefl].
Qed.

Lemma bestQuote_greatest_tie_to_second_witness :
  (getBestQuote envOutage "SOL" "USDC" "100" world1).1 = Ok (raydiumQuote "110") ∧
  (getBestQuote envCalm "SOL" "USDC" "100" world1).1 =
    Ok (meteoraQuote "105.00000000").
Proof.
  split.
  - destruct (bestQuote_greatest_tie_to_second envOutage "SOL" "USDC" "100" world1)
      as (best & -> & _ & _ & Hgt & _).
    simpl. f_equal. apply Hgt. vm_compute. reflexivity.
  - destruct (bestQuote_greatest_tie_to_second envCalm "SOL" "USDC" "100" world1)
      as (best & -> & _ & _ & _ & _ & Heq & _).
    simpl. f_equal. apply Heq. vm_compute. reflexivity.
Defined.

(** Both sources quote 105: the amounts are equal as numbers, and the quote
    returned is Meteora's, the second source's, not Raydium's. *)
Lemma getBestQuote_tie_returns_meteora :
  jsEq (parseFloat (amountOut (raydiumQuote "105.00000000")))
       (parseFloat (amountOut (meteoraQuote "105.00000000"))) = true ∧
  (getBestQuote envCalm "SOL" "USDC" "100" world1).1 =
    Ok (meteoraQuote "105.00000000") ∧
  dex (bestQuote (raydiumQuote "105.00000000") (meteoraQuote "105.00000000"))
    ≠ "raydium".
Proof. vm_compute. split; [|split]; [reflexivity | reflexivity | discriminate]. Qed.

(** ** The broadcast hub *)

Lemma elem_of_setDelete x y (s : list string) :
  y ∈ setDelete x s ↔ y ∈ s ∧ y ≠ x.
Proof. unfold setDelete. rewrite list_elem_of_filter. tauto. Qed.

Lemma setDelete_idemp x (s : list string) :
  setDelete x (setDelete x s) = setDelete x s.
Proof.
  unfold setDelete. induction s as [|y s IH]; [done|].
  rewrite filter_cons. destruct (decide (y ≠ x)) as [Hy|Hy]; [|done].
  by rewrite filter_cons_True, IH.
Qed.

Lemma dropClient_Some c s s' :
  dropClient c s = Some s' → s' = setDelete c s ∧ s' ≠ [].
Proof.
  unfold dropClient. case_decide as Hlen; [done|]. intros [= <-].
  split; [done|]. intros Hnil. by rewrite Hnil in Hlen.
Qed.

Lemma dropClient_idemp c s s' :
  dropClient c s = Some s' → dropClient c s' = Some s'.
Proof.
  intros [-> Hne]%dropClient_Some. unfold dropClient.
  rewrite setDelete_idemp. case_decide as Hlen; [|done].
  by apply nil_length_inv in Hlen.
Qed.

Lemma subscribers_unregisterClient c h oid :
  subscribers (unregisterClient c h) oid = setDelete c (subscribers h oid).
Proof.
  unfold subscribers, unregisterClient. simpl. rewrite lookup_omap.
  destruct (orderClients h !! oid) as [s|]; simpl; [|done].
  unfold dropClient. case_decide as Hlen; simpl; [|done].
  by apply nil_length_inv in Hlen.
Qed.

(** C9. [unregisterClient] takes the connection out of the registry and out of
    the subscriber set of every order, leaves every other connection where it
    was, and doing it a second time changes nothing. *)
Theorem unregisterClient_removes_and_is_idempotent (h : WebSocketManager) (c : string) :
  clients (unregisterClient c h) !! c = None ∧
  (∀ oid, c ∉ subscribers (unregisterClient c h) oid) ∧
  (∀ oid s, orderClients (unregisterClient c h) !! oid = Some s → c ∉ s) ∧
  (∀ c', c' ≠ c →
     clients (unregisterClient c h) !! c' = clients h !! c' ∧
     ∀ oid, c' ∈ subscribers (unregisterClient c h) oid ↔ c' ∈ subscribers h oid) ∧
  unregisterClient c (unregisterClient c h) = unregisterClient c h.
Proof.
  split; [apply lookup_delete_eq|].
  split.
  { intros oid. rewrite subscribers_unregisterClient, elem_of_setDelete. tauto. }
  split.
  { intros oid s. simpl. rewrite lookup_omap.
    destruct (orderClients h !! oid) as [s0|]; simpl; [|done].
    intros [-> _]%dropClient_Some. rewrite elem_of_setDelete. tauto. }
  split.
  { intros c' Hne. split; [by apply lookup_delete_ne|].
    intros oid. rewrite subscribers_unregisterClient, elem_of_setDelete. tauto. }
  unfold unregisterClient. simpl. f_equal.
  - apply delete_delete_eq.
  - apply map_eq. intros oid. rewrite !lookup_omap.
    destruct (orderClients h !! oid) as [s|]; simpl; [|done].
    destruct (dropClient c s) as [s'|] eqn:Hd; simpl; [|done].
    by apply dropClient_idemp in Hd.
Qed.

Lemma unregisterClient_removes_and_is_idempotent_witness :
  clients (unregisterClient "client-2" hub1) !! "client-1" =
    clients hub1 !! "client-1" ∧
  "client-2" ∉ ["client-1"; "client-3"].
Proof.
  split.
  - apply (proj1 (proj2 (proj2 (proj2
             (unregisterClient_removes_and_is_idempotent hub1 "client-2"))))
             "client-1" ltac:(discriminate)).
  - apply (proj1 (proj2 (proj2
             (unregisterClient_removes_and_is_idempotent hub1 "client-2")))
             "order-1" ["client-1"; "client-3"]).
    vm_compute. reflexivity.
Defined.

Lemma notifyClient_canSend message c h out :
  canSend h c = true →
  notifyClient message c (h, out) = (h, out ++ [(c, message)]).
Proof.
  unfold canSend, notifyClient. destruct (clients h !! c) as [ws|]; [|done].
  case_decide; [|by rewrite bool_decide_eq_false_2].
  by destruct (sendThrows ws); rewrite ?andb_false_r.
Qed.

Lemma notifyClient_cannotSend message c h out :
  canSend h c = false →
  notifyClient message c (h, out) = (unregisterClient c h, out).
Proof.
  unfold canSend, notifyClient. destruct (clients h !! c) as [ws|]; [|done].
  case_decide; [|done]. rewrite bool_decide_eq_true_2 by done.
  by destruct (sendThrows ws).
Qed.

(** Dropping a connection that could not be sent to changes nobody's ability
    to receive. *)
Lemma canSend_unregisterClient c h c' :
  canSend h c = false → canSend (unregisterClient c h) c' = canSend h c'.
Proof.
  intros Hc. unfold canSend. simpl. destruct (decide (c = c')) as [<-|Hne].
  - rewrite lookup_delete_eq. symmetry. exact Hc.
  - by rewrite lookup_delete_ne.
Qed.

(** The loop, in closed form: the connections that cannot be sent to are
    dropped, the others get the message, in the order of the set. *)
Lemma broadcast_fold message l h out :
  foldl (λ acc c, notifyClient message c acc) (h, out) l =
  (unregisterAll (filter (λ c, canSend h c = false) l) h,
   out ++ ((λ c, (c, message)) <$> filter (λ c, canSend h c = true) l)).
Proof.
  revert h out. induction l as [|c l IH]; intros h out.
  { simpl. by rewrite app_nil_r. }
  cbn [foldl]. destruct (canSend h c) eqn:Hc.
  - rewrite notifyClient_canSend by done. rewrite IH.
    rewrite (filter_cons_False _ c) by congruence.
    rewrite (filter_cons_True (λ c, canSend h c = true) c) by done.
    by rewrite fmap_cons, <- app_assoc.
  - rewrite notifyClient_cannotSend by done. rewrite IH.
    rewrite (filter_cons_True (λ c, canSend h c = false) c) by done.
    rewrite (filter_cons_False (λ c, canSend h c = true) c) by congruence.
    unfold unregisterAll at 2. cbn [foldl].
    fold (unregisterAll (filter (λ c0, canSend h c0 = false) l)
            (unregisterClient c h)).
    f_equal; [f_equal|f_equal; f_equal];
      apply list_filter_iff; intros c'; by rewrite canSend_unregisterClient.
Qed.

Lemma clients_unregisterAll l h c :
  clients (unregisterAll l h) !! c =
  if decide (c ∈ l) then None else clients h !! c.
Proof.
  revert h. induction l as [|x l IH]; intros h.
  { destruct (decide (c ∈ [])) as [Hin|_]; [|done]. by apply elem_of_nil in Hin. }
  unfold unregisterAll. cbn [foldl]. fold (unregisterAll l (unregisterClient x h)).
  rewrite IH. simpl.
  destruct (decide (c ∈ l)) as [Hin|Hin], (decide (c ∈ x :: l)) as [Hin'|Hin'];
    try done.
  - exfalso. apply Hin'. by right.
  - apply elem_of_cons in Hin' as [->|?]; [|done]. apply lookup_delete_eq.
  - apply lookup_delete_ne. intros ->. apply Hin'. by left.
Qed.

Lemma subscribers_unregisterAll l h oid c :
  c ∈ subscribers (unregisterAll l h) oid ↔ c ∈ subscribers h oid ∧ c ∉ l.
Proof.
  revert h. induction l as [|x l IH]; intros h.
  { simpl. split; [|tauto]. intros ?. split; [done|apply not_elem_of_nil]. }
  unfold unregisterAll. cbn [foldl]. fold (unregisterAll l (unregisterClient x h)).
  rewrite IH, subscribers_unregisterClient, elem_of_setDelete, not_elem_of_cons.
  tauto.
Qed.

(** The loop of a broadcast, on the hub alone: who gets the message, who is
    dropped and who stays. *)
Lemma broadcast_loop (message : WebSocketMessage) (h : WebSocketManager) :
  let oid := m_orderId message in
  let h' := (broadcast message h).1 in
  let out := (broadcast message h).2 in
  (∀ c m, (c, m) ∈ out ↔
          m = message ∧ c ∈ subscribers h oid ∧ canSend h c = true) ∧
  (∀ c m, c ∉ subscribers h oid → (c, m) ∉ out) ∧
  (∀ c m, (c, m) ∉ (broadcast message (unregisterClient c h)).2) ∧
  (∀ c, c ∈ subscribers h oid → canSend h c = false →
        clients h' !! c = None ∧ ∀ o, c ∉ subscribers h' o) ∧
  (∀ c, canSend h c = true →
        clients h' !! c = clients h !! c ∧
        ∀ o, c ∈ subscribers h' o ↔ c ∈ subscribers h o) ∧
  (NoDup (subscribers h oid) → NoDup out).
Proof.
  intros oid h' out.
  assert (Hout : ∀ g c m, (c, m) ∈ (broadcast message g).2 ↔
            m = message ∧ c ∈ subscribers g oid ∧ canSend g c = true).
  { intros g c m. unfold broadcast. rewrite broadcast_fold. simpl.
    rewrite list_elem_of_fmap. setoid_rewrite list_elem_of_filter.
    split.
    - intros (c0 & [= -> ->] & Hs & Hin). done.
    - intros (-> & Hin & Hs). eauto. }
  assert (Hh' : h' = unregisterAll
                  (filter (λ c, canSend h c = false) (subscribers h oid)) h).
  { subst h'. unfold broadcast. by rewrite broadcast_fold. }
  split; [apply Hout|].
  split. { intros c m Hc [_ [Hin _]]%Hout. done. }
  split.
  { intros c m [_ [Hin _]]%Hout.
    rewrite subscribers_unregisterClient, elem_of_setDelete in Hin. tauto. }
  split.
  { intros c Hin Hc. rewrite Hh'. split.
    - rewrite clients_unregisterAll, decide_True; [done|].
      by apply list_elem_of_filter.
    - intros o [_ Hnot]%subscribers_unregisterAll. apply Hnot.
      by apply list_elem_of_filter. }
  split.
  { intros c Hc. rewrite Hh'.
    assert (c ∉ filter (λ c, canSend h c = false) (subscribers h oid)) as Hnot.
    { intros [Hf _]%list_elem_of_filter. congruence. }
    split.
    - by rewrite clients_unregisterAll, decide_False.
    - intros o. rewrite subscribers_unregisterAll. tauto. }
  intros Hnd. subst out. unfold broadcast. rewrite broadcast_fold. simpl.
  apply NoDup_fmap_2.
  - intros x y [= ->]. done.
  - by apply NoDup_filter.
Qed.

(** *** A broadcast, in closed form *)

Lemma filter_all {A} (P : A → Prop) `{∀ x, Decision (P x)} (l : list A) :
  (∀ x, x ∈ l → P x) → filter P l = l.
Proof.
  induction l as [|x l IH]; intros HP; [done|].
  rewrite filter_cons_True by (apply HP; by left).
  f_equal. apply IH. intros y Hy. apply HP. by right.
Qed.

Lemma filter_none {A} (P : A → Prop) `{∀ x, Decision (P x)} (l : list A) :
  (∀ x, x ∈ l → ¬ P x) → filter P l = [].
Proof.
  induction l as [|x l IH]; intros HP; [done|].
  rewrite filter_cons_False by (apply HP; by left).
  apply IH. intros y Hy. apply HP. by right.
Qed.

Lemma canSend_unregisterAll l h c :
  (∀ x, x ∈ l → canSend h x = false) →
  canSend (unregisterAll l h) c = canSend h c.
Proof.
  revert h. induction l as [|x l IH]; intros h Hl; [done|].
  unfold unregisterAll. cbn [foldl]. fold (unregisterAll l (unregisterClient x h)).
  assert (canSend h x = false) as Hx by (apply Hl; by left).
  rewrite IH; [by apply canSend_unregisterClient|].
  intros y Hy. rewrite canSend_unregisterClient by done. apply Hl. by right.
Qed.

Lemma subscribers_unregisterAll_filter l h oid :
  subscribers (unregisterAll l h) oid = filter (λ y, y ∉ l) (subscribers h oid).
Proof.
  revert h. induction l as [|x l IH]; intros h.
  { simpl. symmetry. apply filter_all. intros y _. apply not_elem_of_nil. }
  unfold unregisterAll. cbn [foldl]. fold (unregisterAll l (unregisterClient x h)).
  rewrite IH, subscribers_unregisterClient. unfold setDelete.
  rewrite list_filter_filter. apply list_filter_iff. intros y.
  rewrite not_elem_of_cons. tauto.
Qed.

Lemma filter_ext_in {A} (P Q : A → Prop) `{∀ x, Decision (P x)}
    `{∀ x, Decision (Q x)} (l : list A) :
  (∀ x, x ∈ l → P x ↔ Q x) → filter P l = filter Q l.
Proof.
  induction l as [|x l IH]; intros HPQ; [done|].
  rewrite !filter_cons. rewrite IH by (intros y Hy; apply HPQ; by right).
  assert (P x ↔ Q x) as Hx by (apply HPQ; by left).
  destruct (decide (P x)), (decide (Q x)); tauto.
Qed.

(** The set left by a broadcast holds the clients that got the message. *)
Lemma broadcast_survivors message h :
  subscribers (broadcast message h).1 (m_orderId message) =
  filter (λ c, canSend h c = true) (subscribers h (m_orderId message)).
Proof.
  unfold broadcast. rewrite broadcast_fold. cbn [fst].
  rewrite subscribers_unregisterAll_filter.
  fold (subscribers h (m_orderId message)).
  apply filter_ext_in. intros y Hy. rewrite list_elem_of_filter.
  destruct (canSend h y); split.
  - done.
  - intros _ [? _]. discriminate.
  - intros Hn. exfalso. by apply Hn.
  - discriminate.
Qed.

Lemma broadcast_out message h :
  (broadcast message h).2 =
  (λ c, (c, message)) <$>
    filter (λ c, canSend h c = true) (subscribers h (m_orderId message)).
Proof. unfold broadcast. by rewrite broadcast_fold. Qed.

Lemma canSend_broadcast message h c :
  canSend (broadcast message h).1 c = canSend h c.
Proof.
  unfold broadcast. rewrite broadcast_fold. cbn [fst].
  apply canSend_unregisterAll. by intros x [Hx _]%list_elem_of_filter.
Qed.

Lemma receivedBy_others c (m : WebSocketMessage) (l : list string) :
  c ∉ l → receivedBy c ((λ x, (x, m)) <$> l) = [].
Proof.
  intros Hc. unfold receivedBy. rewrite filter_none; [done|].
  intros [x m'] (y & [= -> ->] & Hy)%list_elem_of_fmap. simpl. by intros ->.
Qed.

(** A listening client gets the message once, and goes on listening. *)
Lemma receivedBy_broadcast c message h :
  listening c (m_orderId message) h →
  receivedBy c (broadcast message h).2 = [message] ∧
  listening c (m_orderId message) (broadcast message h).1.
Proof.
  intros (Hnd & Hin & Hcan). split.
  - rewrite broadcast_out.
    induction (subscribers h (m_orderId message)) as [|x l IH];
      [by apply elem_of_nil in Hin|].
    apply NoDup_cons in Hnd as [Hx Hnd]. apply elem_of_cons in Hin as [<-|Hin].
    + rewrite filter_cons_True by done. rewrite fmap_cons. unfold receivedBy.
      rewrite filter_cons_True by done. rewrite fmap_cons. f_equal.
      apply (receivedBy_others c message). by intros [_ ?]%list_elem_of_filter.
    + rewrite filter_cons. destruct (decide (canSend h x = true)); [|by apply IH].
      rewrite fmap_cons. unfold receivedBy. rewrite filter_cons_False.
      * by apply IH.
      * simpl. intros ->. done.
  - split; [|split].
    + rewrite broadcast_survivors. by apply NoDup_filter.
    + rewrite broadcast_survivors. by apply list_elem_of_filter.
    + by rewrite canSend_broadcast.
Qed.

(** *** [broadcastOrderUpdate] *)

(** The call reads the clock for the time stamp of the message, runs the loop
    on the hub and returns; what was sent is added to what had been. *)
Lemma broadcastOrderUpdate_eq env order w :
  let message :=
    {| m_type := "status_update"; m_orderId := s_id order;
       m_status := s_status order; m_order := order;
       m_timestamp := dateNow env (clockReads w) |} in
  broadcastOrderUpdate env order w =
  (Ok tt, setHub (broadcast message (hub w)).1
                 (sent w ++ (broadcast message (hub w)).2) (tickClock w)).
Proof.
  intros message. unfold broadcastOrderUpdate, bind, newDate. simpl.
  fold message. by destruct (broadcast message (hub w)).
Qed.

(** C8. [broadcastOrderUpdate], called with the snapshot of an order, returns
    normally and sends one message, the [status_update] that carries the
    snapshot under the id of the order, to exactly the client ids that are
    subscribed to that id, registered with an open connection, and whose
    [send] does not throw. A client that is not subscribed to the order gets
    nothing, and so does one unregistered before the call. Every subscribed
    client found unregistered, closed, or whose [send] throws is unregistered;
    the others stay registered and subscribed, and a failure in between does
    not stop their delivery: in a duplicate-free subscriber set each of them
    gets the message exactly once. *)
Theorem broadcast_delivers_to_open_subscribers env (order : OrderState)
    (w : World) :
  let oid := s_id order in
  let message :=
    {| m_type := "status_update"; m_orderId := oid;
       m_status := s_status order; m_order := order;
       m_timestamp := dateNow env (clockReads w) |} in
  ∃ w' out,
    broadcastOrderUpdate env order w = (Ok tt, w') ∧
    sent w' = sent w ++ out ∧
    orders w' = orders w ∧
    (∀ c m, (c, m) ∈ out ↔
            m = message ∧ c ∈ subscribers (hub w) oid ∧ canSend (hub w) c = true) ∧
    (∀ c m, c ∉ subscribers (hub w) oid → (c, m) ∉ out) ∧
    (∀ c, ∃ w2 out2,
       broadcastOrderUpdate env order
         (setHub (unregisterClient c (hub w)) (sent w) w) = (Ok tt, w2) ∧
       sent w2 = sent w ++ out2 ∧ ∀ m, (c, m) ∉ out2) ∧
    (∀ c, c ∈ subscribers (hub w) oid → canSend (hub w) c = false →
          clients (hub w') !! c = None ∧ ∀ o, c ∉ subscribers (hub w') o) ∧
    (∀ c, canSend (hub w) c = true →
          clients (hub w') !! c = clients (hub w) !! c ∧
          ∀ o, c ∈ subscribers (hub w') o ↔ c ∈ subscribers (hub w) o) ∧
    (NoDup (subscribers (hub w) oid) →
     ∀ c, c ∈ subscribers (hub w) oid → canSend (hub w) c = true →
          receivedBy c out = [message]).
Proof.
  intros oid message.
  destruct (broadcast_loop message (hub w))
    as (Hout & Hnever & _ & Hdrop & Hkeep & _).
  eexists _, (broadcast message (hub w)).2.
  split; [apply broadcastOrderUpdate_eq|]. simpl.
  split; [done|]. split; [done|].
  split; [exact Hout|]. split; [exact Hnever|].
  split.
  { intros c. eexists _, _.
    split; [apply broadcastOrderUpdate_eq|]. simpl. split; [done|].
    intros m.
    apply (proj1 (proj2 (proj2 (broadcast_loop message (hub w)))) c m). }
  split; [exact Hdrop|]. split; [exact Hkeep|].
  intros Hnd c Hin Hcan.
  by apply (receivedBy_broadcast c message (hub w)).
Qed.

Lemma broadcast_delivers_to_open_subscribers_witness :
  let message :=
    {| m_type := "status_update"; m_orderId := "order-1"; m_status := routing;
       m_order := m_order message1; m_timestamp := t0 |} in
  ∃ w' out,
    broadcastOrderUpdate envCalm (m_order message1) world1 = (Ok tt, w') ∧
    sent w' = sent world1 ++ out ∧
    receivedBy "client-3" out = [message] ∧
    clients (hub w') !! "client-2" = None.
Proof.
  intros message.
  destruct (broadcast_delivers_to_open_subscribers envCalm (m_order message1)
              world1)
    as (w' & out & Hrun & Hsent & _ & _ & _ & _ & Hdrop & _ & Honce).
  assert (Hsubs : subscribers (hub world1) (s_id (m_order message1)) =
                  ["client-1"; "client-2"; "client-3"]) by (vm_compute; reflexivity).
  exists w', out. split; [exact Hrun|]. split; [exact Hsent|]. split.
  - apply Honce.
    + rewrite Hsubs.
      repeat (constructor; [rewrite ?elem_of_cons, ?elem_of_nil; intros H;
                            repeat destruct H as [H|H]; discriminate || done|]).
      constructor.
    + rewrite Hsubs. do 2 right. left.
    + vm_compute. reflexivity.
  - apply Hdrop.
    + rewrite Hsubs. right. left.
    + vm_compute. reflexivity.
Defined.

(** ** The request schema *)

(** *** The matcher decides the language *)

Lemma lang_void_inv s : ¬ lang Void s.
Proof. intros H. inversion H. Qed.

Lemma lang_eps_inv s : lang Eps s → s = [].
Proof. intros H. by inversion H. Qed.

Lemma lang_class_inv p s : lang (Class p) s → ∃ c, s = [c] ∧ p c = true.
Proof. intros H. inversion H; subst. eauto. Qed.

Lemma lang_cat_inv r1 r2 s :
  lang (Cat r1 r2) s → ∃ s1 s2, s = s1 ++ s2 ∧ lang r1 s1 ∧ lang r2 s2.
Proof. intros H. inversion H; subst. eauto. Qed.

Lemma lang_alt_inv r1 r2 s : lang (Alt r1 r2) s → lang r1 s ∨ lang r2 s.
Proof. intros H. inversion H; subst; eauto. Qed.

(** A non-empty word of a star starts with a non-empty word of its body. *)
Lemma lang_star_inv r s :
  lang (Star r) s →
  s = [] ∨ ∃ c s1 s2, s = c :: s1 ++ s2 ∧ lang r (c :: s1) ∧ lang (Star r) s2.
Proof.
  intros H. remember (Star r) as r0 eqn:Hr.
  induction H as [| | | | | r'|r' s1 s2 H1 _ H2 IH2]; try discriminate.
  { by left. }
  injection Hr as ->. destruct s1 as [|c s1].
  - simpl. by apply IH2.
  - right. exists c, s1, s2. done.
Qed.

Lemma nullable_lang r : nullable r = true ↔ lang r [].
Proof.
  induction r as [| |p|r1 IH1 r2 IH2|r1 IH1 r2 IH2|r IH]; simpl.
  - split; [done|]. by intros ?%lang_void_inv.
  - split; [constructor|done].
  - split; [done|]. by intros (c & ? & _)%lang_class_inv.
  - rewrite andb_true_iff, IH1, IH2. split.
    + intros [H1 H2]. by apply (lang_cat r1 r2 [] []).
    + intros (s1 & s2 & Hs & H1 & H2)%lang_cat_inv.
      symmetry in Hs. apply app_eq_nil in Hs as [-> ->]. done.
  - rewrite orb_true_iff, IH1, IH2. split.
    + intros [H|H]; [by apply lang_alt_l | by apply lang_alt_r].
    + apply lang_alt_inv.
  - split; [constructor | done].
Qed.

Lemma deriv_lang r c s : lang (deriv c r) s ↔ lang r (c :: s).
Proof.
  revert s. induction r as [| |p|r1 IH1 r2 IH2|r1 IH1 r2 IH2|r IH]; intros s; simpl.
  - split; by intros ?%lang_void_inv.
  - split; [by intros ?%lang_void_inv | by intros ?%lang_eps_inv].
  - destruct (p c) eqn:Hp; split.
    + intros ->%lang_eps_inv. by constructor.
    + intros (c' & [= <- ->] & _)%lang_class_inv. constructor.
    + by intros ?%lang_void_inv.
    + intros (c' & [= <- ->] & Hp')%lang_class_inv. congruence.
  - assert (lang (Cat (deriv c r1) r2) s → lang (Cat r1 r2) (c :: s)) as Hl.
    { intros (s1 & s2 & -> & H1 & H2)%lang_cat_inv.
      apply IH1 in H1. by apply (lang_cat r1 r2 (c :: s1) s2). }
    destruct (nullable r1) eqn:Hn; split.
    + intros [H|H]%lang_alt_inv; [by apply Hl|].
      apply IH2 in H. apply nullable_lang in Hn.
      by apply (lang_cat r1 r2 [] (c :: s)).
    + intros (s1 & s2 & Hs & H1 & H2)%lang_cat_inv. destruct s1 as [|c' s1].
      * simpl in Hs. subst s2. apply lang_alt_r. by apply IH2.
      * injection Hs as <- ->. apply lang_alt_l.
        apply lang_cat; [by apply IH1 | done].
    + apply Hl.
    + intros (s1 & s2 & Hs & H1 & H2)%lang_cat_inv. destruct s1 as [|c' s1].
      * apply nullable_lang in H1. congruence.
      * injection Hs as <- ->. apply lang_cat; [by apply IH1 | done].
  - split.
    + intros [H|H]%lang_alt_inv; [apply lang_alt_l, IH1 | apply lang_alt_r, IH2]; done.
    + intros [H|H]%lang_alt_inv; [apply lang_alt_l, IH1 | apply lang_alt_r, IH2]; done.
  - split.
    + intros (s1 & s2 & -> & H1 & H2)%lang_cat_inv. apply IH in H1.
      by apply (lang_star_cons r (c :: s1) s2).
    + intros [?|(c' & s1 & s2 & [= <- ->] & H1 & H2)]%lang_star_inv; [done|].
      apply lang_cat; [by apply IH | done].
Qed.

Lemma regexTest_lang r s : regexTest r s = true ↔ lang r (chars s).
Proof.
  revert r. induction s as [|c s IH]; intros r; simpl.
  - apply nullable_lang.
  - by rewrite IH, deriv_lang.
Qed.

(** *** What the [amountIn] pattern accepts *)

Lemma lang_star_digit l : lang (Star reDigit) l ↔ allDigits l.
Proof.
  split.
  - intros H. remember (Star reDigit) as r0 eqn:Hr.
    induction H as [| | | | | r'|r' s1 s2 H1 _ H2 IH2]; try discriminate.
    { constructor. }
    injection Hr as ->. apply lang_class_inv in H1 as (c & -> & Hc).
    constructor; [done | by apply IH2].
  - induction 1 as [|c l Hc _ IH]; [constructor|].
    apply (lang_star_cons reDigit [c] l); [by constructor | done].
Qed.

Lemma lang_plus_digit l : lang (rePlus reDigit) l ↔ l ≠ [] ∧ allDigits l.
Proof.
  unfold rePlus. split.
  - intros (s1 & s2 & -> & (c & -> & Hc)%lang_class_inv & H2%lang_star_digit)%lang_cat_inv.
    split; [done | by constructor].
  - intros [Hne Hd]. destruct Hd as [|c l Hc Hl]; [done|].
    apply (lang_cat reDigit (Star reDigit) [c] l);
      [by constructor | by apply lang_star_digit].
Qed.

Lemma lang_amountInPattern l : lang amountInPattern l ↔ decimalShape l.
Proof.
  unfold amountInPattern, reOpt, decimalShape. split.
  - intros (ip & rest & -> & [Hne Hd]%lang_plus_digit & Hrest)%lang_cat_inv.
    exists ip. split; [done|]. split; [done|].
    apply lang_alt_inv in Hrest as [Hfrac|Heps];
      [|apply lang_eps_inv in Heps as ->].
    + right.
      apply lang_cat_inv in Hfrac
        as (pt & fp & -> & (c & -> & Hc)%lang_class_inv & [Hne' Hd']%lang_plus_digit).
      apply bool_decide_eq_true in Hc as ->. exists fp. done.
    + left. by rewrite app_nil_r.
  - intros (ip & Hne & Hd & [->|(fp & Hne' & Hd' & ->)]).
    + rewrite <- (app_nil_r ip). apply lang_cat; [by apply lang_plus_digit|].
      apply lang_alt_r. constructor.
    + apply lang_cat; [by apply lang_plus_digit|]. apply lang_alt_l.
      apply (lang_cat _ _ ["."%char] fp); [|by apply lang_plus_digit].
      constructor. by apply bool_decide_eq_true.
Qed.

(** *** What [spec_parseDecimal] accepts *)

Lemma chars_inj s1 s2 : chars s1 = chars s2 → s1 = s2.
Proof.
  revert s2. induction s1 as [|c s1 IH]; intros [|c' s2]; simpl; try done.
  intros [= -> H]. f_equal. by apply IH.
Qed.

Lemma chars_unchars l : chars (unchars l) = l.
Proof. induction l as [|c l IH]; simpl; [done | by rewrite IH]. Qed.

Lemma isDigit_digitOf c : isDigit c = true → ∃ d, digitOf c = Some d.
Proof. unfold isDigit. destruct (digitOf c); [eauto | done]. Qed.

Lemma readDigits_headNotDigit s acc n :
  headNotDigit s → readDigits s acc n = (acc, n, s).
Proof.
  destruct s as [|c s]; simpl; [done|]. unfold isDigit.
  by destruct (digitOf c).
Qed.

(** [readDigits] consumes a run of digits up to a text it stops on. *)
Lemma readDigits_run ip s rest acc n :
  allDigits ip → chars s = ip ++ chars rest → headNotDigit rest →
  ∃ acc', readDigits s acc n = (acc', (n + length ip)%nat, rest).
Proof.
  intros Hd. revert s acc n. induction Hd as [|c ip Hc _ IH]; intros s acc n Hs Hrest.
  - simpl in Hs. apply chars_inj in Hs as ->. exists acc.
    rewrite readDigits_headNotDigit by done. by rewrite Nat.add_0_r.
  - destruct s as [|c' s]; simpl in Hs; [done|]. injection Hs as -> Hs.
    apply isDigit_digitOf in Hc as [d Hd]. simpl. rewrite Hd.
    destruct (IH s (10 * acc + d)%Z (S n) Hs Hrest) as [acc' ->].
    exists acc'. simpl. by rewrite Nat.add_succ_r.
Qed.

(** Conversely, what it consumed is a run of digits, and it stops there. *)
Lemma readDigits_split s acc n :
  ∃ ip, allDigits ip ∧
        chars s = ip ++ chars (readDigits s acc n).2 ∧
        (readDigits s acc n).1.2 = (n + length ip)%nat ∧
        headNotDigit (readDigits s acc n).2.
Proof.
  revert acc n. induction s as [|c s IH]; intros acc n.
  - exists []. simpl. repeat split; [constructor | lia].
  - simpl. destruct (digitOf c) as [d|] eqn:Hd.
    + destruct (IH (10 * acc + d)%Z (S n)) as (ip & Hip & Hs & Hn & Hrest).
      exists (c :: ip). repeat split; try done.
      * constructor; [|done]. unfold isDigit. by rewrite Hd.
      * simpl. by rewrite <- Hs.
      * rewrite Hn. simpl. lia.
    + exists []. simpl. repeat split; [constructor | lia |].
      unfold isDigit. by rewrite Hd.
Qed.

Lemma parseDecimal_shape s : is_Some (spec_parseDecimal s) ↔ decimalShape (chars s).
Proof.
  unfold spec_parseDecimal, decimalShape. split.
  - destruct (readDigits_split s 0%Z 0%nat) as (ip & Hip & Hs & Hn & Hrest).
    destruct (readDigits s 0 0) as [[v ni] rest]. simpl in *.
    case_decide as Hni; [by intros [? ?]|]. intros Hsome.
    exists ip. split; [intros ->; by subst ni|]. split; [done|].
    destruct rest as [|c rest']; [left; by rewrite Hs, app_nil_r|].
    right. case_bool_decide as Hc; [subst c | by destruct Hsome].
    destruct (readDigits_split rest' v 0%nat) as (fp & Hfp & Hs' & Hn' & Hrest').
    destruct (readDigits rest' v 0) as [[m nf] rest'']. simpl in *.
    case_decide as Hnf; [by destruct Hsome|].
    destruct rest'' as [|? ?]; [|by destruct Hsome].
    exists fp. split; [intros ->; by subst nf|]. split; [done|].
    rewrite Hs. simpl. by rewrite Hs', app_nil_r.
  - intros (ip & Hne & Hd & [Hs|(fp & Hne' & Hd' & Hs)]).
    + destruct (readDigits_run ip s EmptyString 0%Z 0%nat Hd) as [v ->];
        [by rewrite app_nil_r | done |].
      rewrite decide_False; [done|]. destruct ip; simpl; [done | lia].
    + destruct (readDigits_run ip s (String "." (unchars fp)) 0%Z 0%nat Hd)
        as [v ->]; [simpl; by rewrite chars_unchars | reflexivity |].
      rewrite decide_False by (destruct ip; simpl; [done | lia]).
      rewrite bool_decide_eq_true_2 by done.
      destruct (readDigits_run fp (unchars fp) EmptyString v 0%nat Hd')
        as [m ->]; [by rewrite chars_unchars, app_nil_r | done |].
      rewrite decide_False; [done|]. destruct fp; simpl; [done | lia].
Qed.

(** The pattern of the schema accepts exactly the decimal numerals. *)
Lemma amountInPattern_parseDecimal s :
  regexTest amountInPattern s = true ↔ is_Some (spec_parseDecimal s).
Proof. by rewrite regexTest_lang, lang_amountInPattern, parseDecimal_shape. Qed.

(** *** Rejection *)

Lemma zStringMin1_issues path message v l :
  zStringMin1 path message v = inr l → l ≠ [].
Proof.
  unfold zStringMin1. destruct v as [|s|]; [by intros [= <-]| |by intros [= <-]].
  case_decide; [done | by intros [= <-]].
Qed.

Lemma zStringRegex_issues re path message v l :
  zStringRegex re path message v = inr l → l ≠ [].
Proof.
  unfold zStringRegex. destruct v as [|s|]; [by intros [= <-]| |by intros [= <-]].
  destruct (regexTest re s); [done | by intros [= <-]].
Qed.

Lemma zOrderType_issues path v l : zOrderType path v = inr l → l ≠ [].
Proof.
  unfold zOrderType. destruct v as [|s|]; [done| |by intros [= <-]].
  case_decide; [done | by intros [= <-]].
Qed.

Lemma zStringRegex_amount path message v s :
  zStringRegex amountInPattern path message v = inl s → spec_amountParses v = true.
Proof.
  unfold zStringRegex, spec_amountParses. destruct v as [|s'|]; [done| |done].
  destruct (regexTest amountInPattern s') eqn:Hre; [|done]. intros _.
  apply bool_decide_eq_true. by apply amountInPattern_parseDecimal.
Qed.

Lemma zOrderType_market path v s :
  zOrderType path v = inl s → v = JsUndefined ∨ v = JsString "market".
Proof.
  unfold zOrderType. destruct v as [|s'|]; [by left| |done].
  case_decide as Hs; [subst s'; by right | done].
Qed.

(** The schema rejects each of the four kinds of bad request. *)
Lemma safeParse_rejects body :
  b_tokenIn body = JsString "" ∨
  b_tokenOut body = JsString "" ∨
  spec_amountParses (b_amountIn body) = false ∨
  (b_orderType body ≠ JsUndefined ∧ b_orderType body ≠ JsString "market") →
  ∃ issues, issues ≠ [] ∧ safeParse body = inr issues.
Proof.
  intros Hbad. unfold safeParse.
  destruct (zStringMin1 "tokenIn" _ (b_tokenIn body)) as [a|l1] eqn:H1.
  2:{ eexists. split; [|reflexivity]. simpl.
      apply zStringMin1_issues in H1. by destruct l1. }
  destruct (zStringMin1 "tokenOut" _ (b_tokenOut body)) as [b|l2] eqn:H2.
  2:{ eexists. split; [|reflexivity]. simpl.
      apply zStringMin1_issues in H2. by destruct l2. }
  destruct (zStringRegex amountInPattern _ _ (b_amountIn body)) as [c|l3] eqn:H3.
  2:{ eexists. split; [|reflexivity]. simpl.
      apply zStringRegex_issues in H3. by destruct l3. }
  destruct (zOrderType "orderType" (b_orderType body)) as [d|l4] eqn:H4.
  2:{ eexists. split; [|reflexivity]. simpl.
      apply zOrderType_issues in H4. by destruct l4. }
  exfalso. destruct Hbad as [Hb|[Hb|[Hb|[Hb Hb']]]].
  - by rewrite Hb in H1.
  - by rewrite Hb in H2.
  - apply zStringRegex_amount in H3. congruence.
  - apply zOrderType_market in H4 as [?|?]; done.
Qed.

(** C7. A request whose [tokenIn] or [tokenOut] is the empty string, whose
    [amountIn] is not a decimal numeral (digits with an optional fraction, so
    nothing signed, and nothing that is not a string), or whose [orderType] is
    given and is not "market", is answered with the 400 "Validation error"
    reply, and the world is exactly as before: no row, no job, not even a
    uuid drawn or a clock read. *)
Theorem executeOrder_rejects_invalid_request env body w :
  b_tokenIn body = JsString "" ∨
  b_tokenOut body = JsString "" ∨
  spec_amountParses (b_amountIn body) = false ∨
  (b_orderType body ≠ JsUndefined ∧ b_orderType body ≠ JsString "market") →
  ∃ issues, issues ≠ [] ∧
            executeOrder env body w = (Ok (Reply400Validation issues), w).
Proof.
  intros (issues & Hne & Hparse)%safeParse_rejects.
  exists issues. split; [done|].
  unfold executeOrder, tryCatch. by rewrite Hparse.
Qed.

Lemma executeOrder_rejects_invalid_request_witness :
  (∃ issues, issues ≠ [] ∧
     executeOrder envCalm bodyLimit world1 = (Ok (Reply400Validation issues), world1)) ∧
  (∃ issues, issues ≠ [] ∧
     executeOrder envCalm bodyNegative world1 = (Ok (Reply400Validation issues), world1)).
Proof.
  split.
  - apply (executeOrder_rejects_invalid_request envCalm bodyLimit world1).
    do 3 right. split; discriminate.
  - apply (executeOrder_rejects_invalid_request envCalm bodyNegative world1).
    do 2 right. left. vm_compute. reflexivity.
Defined.

(** ** The dispatcher *)

Lemma isLive_activated j :
  isLive {| jobId := jobId j; jobName := jobName j; jobData := jobData j;
            attempts := attempts j; backoffDelay := backoffDelay j;
            jobState := job_active; attemptsMade := attemptsMade j |} = true.
Proof. reflexivity. Qed.

(** A call of the queue either rejects, and the job table is untouched, or
    runs [queueAdd] on the table. *)
Lemma addOrderToQueue_run env data w :
  addOrderToQueue env data w =
  match queueFault env (queueCalls w) with
  | Some message => (Throw (JsError message), tickQueue w)
  | None => queueAdd "execute-order" data (orderId data) (tickQueue w)
  end.
Proof. reflexivity. Qed.

(** A call of the queue touches the job table and the count of its calls,
    nothing else. *)
Lemma addOrderToQueue_frame env data w out w' :
  addOrderToQueue env data w = (out, w') →
  orders w' = orders w ∧ clockReads w' = clockReads w ∧
  storeCalls w' = storeCalls w ∧ hub w' = hub w ∧ sent w' = sent w ∧
  queueCalls w' = S (queueCalls w).
Proof.
  rewrite addOrderToQueue_run.
  destruct (queueFault env (queueCalls w)); [by intros [= <- <-]|].
  unfold queueAdd. cbn [jobs tickQueue].
  destruct (jobs w !! orderId data) as [j|]; [destruct (isLive j)|];
    by intros [= <- <-].
Qed.

Lemma queueAdd_live name data jid w j :
  jobs w !! jid = Some j → isLive j = true → queueAdd name data jid w = (Ok j, w).
Proof. intros Hj Hlive. unfold queueAdd. by rewrite Hj, Hlive. Qed.

(** C6. [addOrderToQueue], when the queue answers, returns a job whose id is
    the order id. A second call with the same order id, made while that job
    is still waiting, or after a worker made it active, returns that same job
    when the queue answers and leaves the job table as it is whether the queue
    answers or not: no second job is created. *)
Theorem addOrderToQueue_idempotent env (data : OrderJobData) (w : World) :
  jobsWf w →
  queueFault env (queueCalls w) = None →
  ∃ j w1,
    addOrderToQueue env data w = (Ok j, w1) ∧
    jobId j = orderId data ∧
    jobs w1 !! orderId data = Some j ∧
    (queueFault env (queueCalls w1) = None →
     addOrderToQueue env data w1 = (Ok j, tickQueue w1)) ∧
    (∀ out w2, addOrderToQueue env data w1 = (out, w2) →
               jobs w2 = jobs w1 ∧ ∀ j2, out = Ok j2 → j2 = j) ∧
    ∃ j', jobs (activate (orderId data) w1) !! orderId data = Some j' ∧
          jobId j' = jobId j ∧ jobState j' = job_active ∧
          (queueFault env (queueCalls w1) = None →
           addOrderToQueue env data (activate (orderId data) w1) =
             (Ok j', tickQueue (activate (orderId data) w1))) ∧
          (∀ out w2,
             addOrderToQueue env data (activate (orderId data) w1) = (out, w2) →
             jobs w2 = jobs (activate (orderId data) w1) ∧
             ∀ j2, out = Ok j2 → j2 = j').
Proof.
  intros Hwf Hq.
  assert (Hagain : ∀ (w1 : World) j,
            jobs w1 !! orderId data = Some j → isLive j = true →
            (queueFault env (queueCalls w1) = None →
             addOrderToQueue env data w1 = (Ok j, tickQueue w1)) ∧
            (∀ out w2, addOrderToQueue env data w1 = (out, w2) →
                       jobs w2 = jobs w1 ∧ ∀ j2, out = Ok j2 → j2 = j)).
  { intros w1 j Hj Hlive. rewrite addOrderToQueue_run.
    destruct (queueFault env (queueCalls w1)) as [msg|].
    - split; [done|]. intros out w2 [= <- <-]. split; [done|]. intros j2 [=].
    - rewrite (queueAdd_live _ _ _ _ j) by done.
      split; [done|]. intros out w2 [= <- <-]. split; [done|].
      by intros j2 [= <-]. }
  assert (Hactive : ∀ (w1 : World) j,
            jobs w1 !! orderId data = Some j →
            ∃ j', jobs (activate (orderId data) w1) !! orderId data = Some j' ∧
                  jobId j' = jobId j ∧ jobState j' = job_active ∧
                  isLive j' = true).
  { intros w1 j Hj. eexists. unfold activate. rewrite Hj. simpl.
    rewrite lookup_insert_eq. done. }
  assert (Hend : ∀ (w1 : World) j,
            jobs w1 !! orderId data = Some j → isLive j = true →
            jobId j = orderId data →
            ∃ j0 w0, (Ok j, w1) = (Ok j0, w0) ∧
              jobId j0 = orderId data ∧
              jobs w0 !! orderId data = Some j0 ∧
              (queueFault env (queueCalls w0) = None →
               addOrderToQueue env data w0 = (Ok j0, tickQueue w0)) ∧
              (∀ out w2, addOrderToQueue env data w0 = (out, w2) →
                         jobs w2 = jobs w0 ∧ ∀ j2, out = Ok j2 → j2 = j0) ∧
              ∃ j', jobs (activate (orderId data) w0) !! orderId data = Some j' ∧
                    jobId j' = jobId j0 ∧ jobState j' = job_active ∧
                    (queueFault env (queueCalls w0) = None →
                     addOrderToQueue env data (activate (orderId data) w0) =
                       (Ok j', tickQueue (activate (orderId data) w0))) ∧
                    (∀ out w2,
                       addOrderToQueue env data (activate (orderId data) w0) =
                         (out, w2) →
                       jobs w2 = jobs (activate (orderId data) w0) ∧
                       ∀ j2, out = Ok j2 → j2 = j')).
  { intros w1 j Hj Hlive Hid. exists j, w1. split; [done|]. split; [done|].
    split; [done|]. destruct (Hagain w1 j Hj Hlive) as [Hsame Hany].
    split; [done|]. split; [done|].
    destruct (Hactive w1 j Hj) as (j' & Hj' & Hid' & Hst & Hlive').
    exists j'. split; [done|]. split; [done|]. split; [done|].
    destruct (Hagain (activate (orderId data) w1) j' Hj' Hlive') as [Hs' Ha'].
    split; [|done]. intros Hq'. apply Hs'.
    unfold activate. rewrite Hj. exact Hq'. }
  rewrite addOrderToQueue_run, Hq. unfold queueAdd at 1. cbn [jobs tickQueue].
  destruct (jobs w !! orderId data) as [j|] eqn:Hj.
  - destruct (isLive j) eqn:Hlive.
    + apply Hend; [done | done | by apply Hwf].
    + apply Hend; [apply lookup_insert_eq | done | done].
  - apply Hend; [apply lookup_insert_eq | done | done].
Qed.

Lemma addOrderToQueue_idempotent_witness :
  ∃ j w1,
    addOrderToQueue envCalm job1 world1 = (Ok j, w1) ∧
    jobId j = orderId job1 ∧
    jobs w1 !! orderId job1 = Some j ∧
    addOrderToQueue envCalm job1 w1 = (Ok j, tickQueue w1) ∧
    ∃ j', jobs (activate (orderId job1) w1) !! orderId job1 = Some j' ∧
          jobId j' = jobId j ∧ jobState j' = job_active ∧
          addOrderToQueue envCalm job1 (activate (orderId job1) w1) =
            (Ok j', tickQueue (activate (orderId job1) w1)).
Proof.
  destruct (addOrderToQueue_idempotent envCalm job1 world1)
    as (j & w1 & Hrun & Hid & Hj & Hsame & _ & j' & Hj' & Hid' & Hst & Hact & _).
  - intros k j Hj. vm_compute in Hj. discriminate.
  - reflexivity.
  - exists j, w1. split; [exact Hrun|]. split; [exact Hid|]. split; [exact Hj|].
    split; [by apply Hsame|]. exists j'. split; [exact Hj'|].
    split; [exact Hid'|]. split; [exact Hst|]. by apply Hact.
Defined.

(** ** One attempt of the worker *)

Lemma tracks_start oid (w : World) o :
  orders w !! oid = Some o → tracks oid (orders w) w (clockReads w) o.
Proof. intros Ho. split; [|done]. symmetry. by apply insert_id. Qed.

Lemma tracks_lookup oid os w c row :
  tracks oid os w c row → orders w !! oid = Some row.
Proof. intros [-> _]. apply lookup_insert_eq. Qed.

Lemma tracks_update env oid os w c row st upd w' :
  tracks oid os w c row →
  updateOrderStatus env oid st upd w = (Ok tt, w') →
  tracks oid os w' (3 + c) (transitionRow env c row st upd) ∧
  quoteCalls w' = quoteCalls w ∧ swapCalls w' = swapCalls w.
Proof.
  intros Ht Hrun. pose proof (tracks_lookup _ _ _ _ _ Ht) as Hrow.
  destruct Ht as [Hos Hc].
  apply updateOrderStatus_inv in Hrun
    as [(_ & o & Ho & _ & _ & Hos' & Hc' & _ & [_ Hq Hs _])|(e & [=] & _)].
  rewrite Hrow in Ho. injection Ho as <-.
  split; [|done]. split.
  - rewrite Hos', Hos, Hc. apply insert_insert_eq.
  - rewrite Hc', Hc. done.
Qed.


Lemma tracks_tickQuote oid os w c row :
  tracks oid os w c row → tracks oid os (tickQuote w) c row.
Proof. by intros [? ?]. Qed.

Lemma tracks_tickSwap oid os w c row :
  tracks oid os w c row → tracks oid os (tickSwap w) c row.
Proof. by intros [? ?]. Qed.

(** The handler of the [catch] always re-throws. *)
Lemma catch_rethrows env oid (error : Thrown) w out w' :
  (updateOrderStatus env oid failed (failureUpdates (errorMessage error)) ;;;
   throw error) w = (out, w') →
  ∃ e, out = Throw (A := string) e.
Proof.
  intros [(u & w1 & _ & Hthrow)|(e & _ & ->)]%bind_inv; [| by eauto].
  unfold throw in Hthrow. injection Hthrow as <- _. eauto.
Qed.

(** An attempt that returns went through the four transitions. *)
Lemma orderWorker_Ok_inv env job w hash w' o :
  orders w !! orderId job = Some o →
  orderWorker env job w = (Ok hash, w') →
  let q := bestQuote (raydiumQuote (raydiumOut env (quoteCalls w)))
                     (meteoraQuote (meteoraOut env (quoteCalls w))) in
  hash = "0x" +:+ randomHex env 64 (swapCalls w) ∧
  orders w' =
    <[orderId job := completedRow env (clockReads w) o q hash]> (orders w) ∧
  clockReads w' = (12 + clockReads w)%nat.
Proof.
  intros Ho Hrun q. unfold orderWorker in Hrun.
  apply tryCatch_inv in Hrun as [(a & Hbody & [= <-])|(e & w0 & _ & Hh)].
  2:{ apply catch_rethrows in Hh as [e' [=]]. }
  apply tracks_start in Ho as Ht0.
  apply bind_Ok_inv in Hbody as ([] & w1 & H1 & Hbody).
  destruct (tracks_update _ _ _ _ _ _ _ _ _ Ht0 H1) as (Ht1 & Hq1 & Hs1).
  apply bind_Ok_inv in Hbody as (q' & w2 & H2 & Hbody).
  rewrite getBestQuote_run in H2. injection H2 as <- <-. rewrite Hq1 in *.
  fold q in Hbody. apply tracks_tickQuote in Ht1 as Ht2.
  apply bind_Ok_inv in Hbody as ([] & w3 & H3 & Hbody).
  destruct (tracks_update _ _ _ _ _ _ _ _ _ Ht2 H3) as (Ht3 & _ & Hs3).
  apply bind_Ok_inv in Hbody as ([] & w4 & H4 & Hbody).
  destruct (tracks_update _ _ _ _ _ _ _ _ _ Ht3 H4) as (Ht4 & _ & Hs4).
  apply bind_Ok_inv in Hbody as (h & w5 & H5 & Hbody).
  unfold executeSwap in H5. injection H5 as <- <-.
  apply tracks_tickSwap in Ht4 as Ht5.
  apply bind_Ok_inv in Hbody as ([] & w6 & H6 & Hret).
  destruct (tracks_update _ _ _ _ _ _ _ _ _ Ht5 H6) as ([Hos Hc] & _ & _).
  unfold ret in Hret. injection Hret as <- <-.
  rewrite Hs4, Hs3 in *. simpl in *. rewrite Hs1 in *.
  split; [done|]. split; [exact Hos|]. rewrite Hc. lia.
Qed.

Lemma historyTimestamps_transitionRow env c o st upd :
  historyTimestamps (transitionRow env c o st upd) =
  historyTimestamps o ++ [dateNow env c].
Proof. unfold historyTimestamps. rewrite transitionRow_history. by rewrite fmap_app. Qed.

Lemma Sorted_snoc (l : list Z) (x : Z) :
  Sorted Z.le l → (∀ t, last l = Some t → (t ≤ x)%Z) → Sorted Z.le (l ++ [x]).
Proof.
  induction 1 as [|a l Hs IH Hhd]; intros Hlast; simpl.
  { repeat constructor. }
  constructor.
  - apply IH. intros t Ht. apply Hlast. by destruct l.
  - destruct l as [|b l]; simpl.
    + constructor. by apply Hlast.
    + constructor. by inversion Hhd.
Qed.

Lemma completedRow_statuses env c o q hash :
  historyStatuses (completedRow env c o q hash) =
  historyStatuses o ++ [routing; building; submitted; confirmed].
Proof.
  unfold completedRow. rewrite !historyStatuses_transitionRow.
  by rewrite <- !app_assoc.
Qed.

Lemma completedRow_sorted env c o q hash :
  clockMonotone env →
  Sorted Z.le (historyTimestamps o) →
  (∀ t, last (historyTimestamps o) = Some t → (t ≤ dateNow env c)%Z) →
  Sorted Z.le (historyTimestamps (completedRow env c o q hash)).
Proof.
  intros Hmono Hsorted Hlast. unfold completedRow.
  rewrite !historyTimestamps_transitionRow.
  repeat apply Sorted_snoc; try done;
    intros t; rewrite last_snoc; intros [= <-]; apply Hmono; lia.
Qed.

(** C4, as the code has it. An attempt that completes leaves the order
    confirmed and appends exactly routing, building, submitted, confirmed to
    the history it found. For an order on its first attempt, whose history is
    [pending] alone, the statuses are exactly the canonical five; an order
    completed on a retry keeps the entries of the failed attempts before them.
    The time stamps are non-decreasing when the clock is. *)
Theorem orderWorker_completed_history env job w hash w' o :
  orders w !! orderId job = Some o →
  orderWorker env job w = (Ok hash, w') →
  ∃ o', orders w' !! orderId job = Some o' ∧
        status o' = confirmed ∧
        historyStatuses o' =
          historyStatuses o ++ [routing; building; submitted; confirmed] ∧
        (historyStatuses o = [pending] →
         historyStatuses o' = [pending; routing; building; submitted; confirmed]) ∧
        (clockMonotone env →
         Sorted Z.le (historyTimestamps o) →
         (∀ t, last (historyTimestamps o) = Some t →
               (t ≤ dateNow env (clockReads w))%Z) →
         Sorted Z.le (historyTimestamps o')).
Proof.
  intros Ho Hrun.
  destruct (orderWorker_Ok_inv env job w hash w' o Ho Hrun) as (_ & Hos & _).
  eexists. split; [by rewrite Hos, lookup_insert_eq|]. split; [done|].
  split; [apply completedRow_statuses|].
  split; [intros Hp; by rewrite completedRow_statuses, Hp|].
  apply completedRow_sorted.
Qed.

Lemma orderWorker_completed_history_witness :
  ∃ o', orders worldDone !! orderId job1 = Some o' ∧
        status o' = confirmed ∧
        historyStatuses o' = [pending; routing; building; submitted; confirmed] ∧
        Sorted Z.le (historyTimestamps o').
Proof.
  destruct (orderWorker_completed_history envCalm job1 world1
              ("0x" +:+ randomHex envCalm 64 0) worldDone order1)
    as (o' & Ho' & Hst & _ & Hfive & Hsorted).
  - reflexivity.
  - vm_compute. reflexivity.
  - exists o'. split; [exact Ho'|]. split; [exact Hst|].
    split; [apply Hfive; reflexivity|]. apply Hsorted.
    + intros i j Hij. unfold envCalm, dateNow. lia.
    + repeat constructor.
    + intros t [= <-]. vm_compute. discriminate.
Defined.

(** The store does not answer the third call: the first attempt throws and
    marks the order failed. The processor is run again on the same job, as a
    retry does, and goes through: the order is confirmed, and its history is
    not the canonical five. *)
Lemma retried_order_keeps_failed_entries :
  (orderWorker envOutage job1 world1).1 =
    Throw (JsError "Can't reach database server") ∧
  (orderWorker envOutage job1 worldFailed).1 =
    Ok ("0x" +:+ randomHex envOutage 64 0) ∧
  status <$> orders (orderWorker envOutage job1 worldFailed).2 !! "order-1" =
    Some confirmed ∧
  historyStatuses <$> orders (orderWorker envOutage job1 worldFailed).2 !! "order-1" =
    Some [pending; routing; failed; routing; building; submitted; confirmed] ∧
  historyStatuses <$> orders (orderWorker envOutage job1 worldFailed).2 !! "order-1" ≠
    Some [pending; routing; building; submitted; confirmed].
Proof.
  vm_compute. split; [|split; [|split; [|split]]]; [reflexivity..|discriminate].
Qed.

(** ** The failure reason *)











(** The store rejects the read of the second step and then the read of the
    transition to failed: the attempt throws, no write was rejected, and the
    order is not failed: it stays [routing], without a failed entry and
    without a reason. *)
Example orderWorker_unmarked_when_read_rejected :
  (orderWorker envBlackout job1 world1).1 =
    Throw (JsError "Can't reach database server") ∧
  storeCalls (orderWorker envBlackout job1 world1).2 = 4%nat ∧
  status <$> orders (orderWorker envBlackout job1 world1).2 !! "order-1" =
    Some routing ∧
  historyStatuses <$> orders (orderWorker envBlackout job1 world1).2 !! "order-1" =
    Some [pending; routing] ∧
  failureReason <$> orders (orderWorker envBlackout job1 world1).2 !! "order-1" =
    Some None.
Proof. vm_compute. repeat split; reflexivity. Qed.


(** An attempt on a stored order completes whenever the store serves the eight
    calls it makes. *)
Lemma orderWorker_completes env job w o :
  orders w !! orderId job = Some o →
  (∀ k, (k < 8)%nat → storeFault env (k + storeCalls w) = None) →
  ∃ hash w', orderWorker env job w = (Ok hash, w').
Proof.
  intros Ho Hserved. unfold orderWorker, tryCatch.
  destruct (updateOrderStatus_Ok env (orderId job) routing noUpdates w o Ho)
    as (w1 & R1 & Hos1 & _ & Hs1 & _);
    [apply (Hserved 0%nat); lia | apply (Hserved 1%nat); lia |].
  rewrite (bind_run_Ok _ _ _ _ _ R1), (bind_run_Ok _ _ _ _ _ (getBestQuote_run _ _ _ _ w1)).
  set (q := bestQuote _ _).
  edestruct (updateOrderStatus_Ok env (orderId job) building (quoteUpdates q None)
               (tickQuote w1))
    as (w3 & R3 & Hos3 & _ & Hs3 & _);
    [simpl; rewrite Hos1; apply lookup_insert_eq
    |simpl; rewrite Hs1; apply (Hserved 2%nat); lia
    |simpl; rewrite Hs1; apply (Hserved 3%nat); lia |].
  rewrite (bind_run_Ok _ _ _ _ _ R3).
  edestruct (updateOrderStatus_Ok env (orderId job) submitted (quoteUpdates q None) w3)
    as (w4 & R4 & Hos4 & _ & Hs4 & _);
    [rewrite Hos3; apply lookup_insert_eq
    |rewrite Hs3; simpl; rewrite Hs1; apply (Hserved 4%nat); lia
    |rewrite Hs3; simpl; rewrite Hs1; apply (Hserved 5%nat); lia |].
  rewrite (bind_run_Ok _ _ _ _ _ R4).
  unfold executeSwap at 1. unfold bind at 1.
  set (hash := "0x" +:+ _).
  edestruct (updateOrderStatus_Ok env (orderId job) confirmed
               (quoteUpdates q (Some hash)) (tickSwap w4))
    as (w6 & R6 & _);
    [simpl; rewrite Hos4; apply lookup_insert_eq
    |simpl; rewrite Hs4, Hs3; simpl; rewrite Hs1; apply (Hserved 6%nat); lia
    |simpl; rewrite Hs4, Hs3; simpl; rewrite Hs1; apply (Hserved 7%nat); lia |].
  rewrite (bind_run_Ok _ _ _ _ _ R6). unfold ret. eauto.
Qed.

(** ** Sanity of the representation *)

(** The subscriber lists stay duplicate-free, as sets are. *)
Lemma hubWf_new : hubWf newWebSocketManager.
Proof. intros oid s Hs. simpl in Hs. by rewrite lookup_empty in Hs. Qed.

Lemma NoDup_setAdd x (s : list string) : NoDup s → NoDup (setAdd x s).
Proof.
  intros Hs. unfold setAdd. case_decide as Hin; [done|].
  apply NoDup_app. split; [done|]. split; [|apply NoDup_singleton].
  intros y Hy ->%list_elem_of_singleton. done.
Qed.

Lemma hubWf_registerClient c ws h : hubWf h → hubWf (registerClient c ws h).
Proof. done. Qed.

Lemma hubWf_subscribeToOrder c o h : hubWf h → hubWf (subscribeToOrder c o h).
Proof.
  intros Hwf oid s. simpl. destruct (decide (o = oid)) as [->|Hne].
  - rewrite lookup_insert_eq. intros [= <-]. apply NoDup_setAdd.
    destruct (orderClients h !! oid) as [s0|] eqn:Hs0; simpl;
      [by apply (Hwf oid) | constructor].
  - rewrite lookup_insert_ne by done. apply Hwf.
Qed.

Lemma hubWf_unregisterClient c h : hubWf h → hubWf (unregisterClient c h).
Proof.
  intros Hwf oid s. simpl. rewrite lookup_omap.
  destruct (orderClients h !! oid) as [s0|] eqn:Hs0; simpl; [|done].
  intros [-> _]%dropClient_Some. apply NoDup_filter. by apply (Hwf oid).
Qed.

Lemma hubWf_broadcast message h : hubWf h → hubWf (broadcast message h).1.
Proof.
  intros Hwf. unfold broadcast. rewrite broadcast_fold. simpl.
  generalize (filter (λ c, canSend h c = false)
                (default [] (orderClients h !! m_orderId message))).
  intros l. revert h Hwf. induction l as [|c l IH]; intros h Hwf; [done|].
  apply IH. by apply hubWf_unregisterClient.
Qed.

(** The job table stays keyed by job id. *)
Lemma jobsWf_addOrderToQueue env data w :
  jobsWf w → jobsWf (addOrderToQueue env data w).2.
Proof.
  intros Hwf. rewrite addOrderToQueue_run.
  destruct (queueFault env (queueCalls w)); [done|].
  unfold queueAdd. cbn [jobs tickQueue].
  destruct (jobs w !! orderId data) as [j|] eqn:Hj;
    [destruct (isLive j); [done|]|];
    intros k j'; simpl; (destruct (decide (orderId data = k)) as [<-|Hne];
      [rewrite lookup_insert_eq; by intros [= <-]
      |rewrite lookup_insert_ne by done; apply Hwf]).
Qed.

(** A well-formed request is accepted: the row is created pending with the
    single pending entry, and the job is queued under the order's id. *)
Example executeOrder_accepts_valid_request :
  let r := executeOrder envCalm bodyValid world1 in
  r.1 = Ok (Reply201 {| o_orderId := "order-2"; o_status := pending;
                        o_tokenIn := "SOL"; o_tokenOut := "USDC";
                        o_amountIn := "100.5"; o_createdAt := (t0 + 1000)%Z |}) ∧
  historyStatuses <$> orders r.2 !! "order-2" = Some [pending] ∧
  status <$> orders r.2 !! "order-2" = Some pending ∧
  jobState <$> jobs r.2 !! "order-2" = Some job_waiting.
Proof. vm_compute. repeat split; reflexivity. Qed.

(** The retry policy runs the processor again on the same job. *)
Example runJob_second_attempt :
  runJob envOutage 3 job1 world1 = orderWorker envOutage job1 worldFailed.
Proof. vm_compute. reflexivity. Qed.

(** ** From the submission to the confirmation *)

(** An accepted request has created the row, pending, with the single pending
    entry stamped by the first of the two clock readings made. *)
Lemma executeOrder_created env body w r w1 :
  executeOrder env body w = (Ok (Reply201 r), w1) →
  ∃ o, orders w1 !! o_orderId r = Some o ∧
       id o = o_orderId r ∧ status o = pending ∧ failureReason o = None ∧
       statusHistory o =
         HistJson [transitionEntry env (clockReads w) pending noUpdates] ∧
       clockReads w1 = (2 + clockReads w)%nat.
Proof.
  unfold executeOrder. intros Hrun.
  apply tryCatch_inv in Hrun as [(a & Hbody & [= <-])|(e & w0 & _ & [=])].
  destruct (safeParse body) as [data|issues]; [|by inversion Hbody].
  case_decide; [by inversion Hbody|].
  apply bind_Ok_inv in Hbody as (oid & w2 & [= <- <-] & Hbody).
  apply bind_Ok_inv in Hbody as (ts & w3 & [= <- <-] & Hbody).
  apply bind_Ok_inv in Hbody as (now & w4 & [= <- <-] & Hbody).
  apply bind_Ok_inv in Hbody as (order & w5 & Hcreate & Hbody).
  apply bind_Ok_inv in Hbody as (j & w6 & Hadd & [= <- <-]).
  unfold create, storeCall in Hcreate. simpl in Hcreate.
  destruct (storeFault env (storeCalls w)); [discriminate|].
  destruct (orders w !! uuidv4 env (uuidCalls w)); [discriminate|].
  injection Hcreate as <- <-.
  assert (orders w6 = <[uuidv4 env (uuidCalls w) :=
            {| id := uuidv4 env (uuidCalls w); tokenIn := r_tokenIn data;
               tokenOut := r_tokenOut data; amountIn := r_amountIn data;
               status := pending;
               statusHistory :=
                 HistJson [{| t_status := pending;
                              timestamp := dateNow env (clockReads w);
                              metadata := noUpdates |}];
               dexUsed := None; executedPrice := None; txHash := None;
               failureReason := None;
               createdAt := dateNow env (S (clockReads w));
               updatedAt := dateNow env (S (clockReads w)) |}]> (orders w)
          ∧ clockReads w6 = S (S (clockReads w))) as [Hos Hc].
  { apply addOrderToQueue_frame in Hadd as (Hos & Hc & _). by rewrite Hos, Hc. }
  eexists. simpl. rewrite Hos, lookup_insert_eq. done.
Qed.

(** A request that was accepted and whose first attempt completes: the
    history is exactly pending, routing, building, submitted, confirmed, and
    its time stamps are in order when the clock is. *)
Lemma submitted_then_completed env body w r w1 job hash w2 :
  executeOrder env body w = (Ok (Reply201 r), w1) →
  orderId job = o_orderId r →
  orderWorker env job w1 = (Ok hash, w2) →
  ∃ o', orders w2 !! o_orderId r = Some o' ∧
        status o' = confirmed ∧
        historyStatuses o' = [pending; routing; building; submitted; confirmed] ∧
        (clockMonotone env → Sorted Z.le (historyTimestamps o')).
Proof.
  intros (o & Ho & _ & _ & _ & Hhist & Hc)%executeOrder_created Hjob Hrun.
  rewrite <- Hjob in *.
  destruct (orderWorker_Ok_inv env job w1 hash w2 o Ho Hrun) as (_ & Hos & _).
  eexists. split; [by rewrite Hos, lookup_insert_eq|]. split; [done|].
  split.
  - rewrite completedRow_statuses. unfold historyStatuses. by rewrite Hhist.
  - intros Hmono. apply completedRow_sorted; [done| |];
      unfold historyTimestamps; rewrite Hhist; simpl.
    + repeat constructor.
    + intros t [= <-]. apply Hmono. lia.
Qed.

(** * Further properties of the sources *)

(** ** The hub over its life *)

Lemma noEmptySets_unregisterClient c h :
  noEmptySets h → noEmptySets (unregisterClient c h).
Proof.
  intros _ oid s. simpl. rewrite lookup_omap.
  destruct (orderClients h !! oid) as [s0|]; simpl; [|done].
  by intros [_ ?]%dropClient_Some.
Qed.

Lemma noEmptySets_subscribeToOrder c o h :
  noEmptySets h → noEmptySets (subscribeToOrder c o h).
Proof.
  intros Hne oid s. simpl. destruct (decide (o = oid)) as [->|Hneq].
  - rewrite lookup_insert_eq. intros [= <-]. unfold setAdd.
    case_decide as Hin; [by destruct (default [] _); [apply elem_of_nil in Hin|]|].
    by destruct (default [] _).
  - rewrite lookup_insert_ne by done. apply Hne.
Qed.

Lemma noEmptySets_unregisterAll l h :
  noEmptySets h → noEmptySets (unregisterAll l h).
Proof.
  revert h. induction l as [|c l IH]; intros h Hne; [done|].
  apply IH. by apply noEmptySets_unregisterClient.
Qed.

Lemma runHub_invariant (ops : list HubOp) :
  hubWf (runHub ops) ∧ noEmptySets (runHub ops).
Proof.
  unfold runHub. induction ops as [|op ops IH] using rev_ind.
  { split; [apply hubWf_new|]. intros oid s Hs. simpl in Hs.
    by rewrite lookup_empty in Hs. }
  rewrite foldl_snoc. destruct IH as [Hwf Hne]. destruct op; simpl.
  - done.
  - split; [by apply hubWf_subscribeToOrder | by apply noEmptySets_subscribeToOrder].
  - split; [by apply hubWf_unregisterClient | by apply noEmptySets_unregisterClient].
  - split; [by apply hubWf_broadcast|].
    unfold broadcast. rewrite broadcast_fold. simpl.
    by apply noEmptySets_unregisterAll.
Qed.

Lemma hubWf_subscribers h oid : hubWf h → NoDup (subscribers h oid).
Proof.
  intros Hwf. unfold subscribers.
  destruct (orderClients h !! oid) as [s|] eqn:Hs; simpl;
    [by apply (Hwf oid) | constructor].
Qed.

(** Whatever calls the hub has received since it was created, every
    subscriber set it holds is duplicate-free and non-empty: an order with no
    subscriber left has no entry, and no client is listed twice for an
    order. *)
Theorem hub_sets_stay_wellformed (ops : list HubOp) (oid : string) :
  NoDup (subscribers (runHub ops) oid) ∧
  (orderClients (runHub ops) !! oid = None ∨ subscribers (runHub ops) oid ≠ []).
Proof.
  destruct (runHub_invariant ops) as [Hwf Hne].
  split; [by apply hubWf_subscribers|].
  unfold subscribers. destruct (orderClients (runHub ops) !! oid) as [s|] eqn:Hs;
    [right; simpl; by apply (Hne oid) | by left].
Qed.

(** [subscribeToOrder] puts the client at the end of the order's set unless it
    is there already, touches no other set and not the registry, needs no
    registered client, and a second call changes nothing. *)
Theorem subscribeToOrder_adds_once (c o : string) (h : WebSocketManager) :
  let h' := subscribeToOrder c o h in
  subscribers h' o =
    (if decide (c ∈ subscribers h o) then subscribers h o
     else subscribers h o ++ [c]) ∧
  (∀ o', o' ≠ o → subscribers h' o' = subscribers h o') ∧
  clients h' = clients h ∧
  subscribeToOrder c o h' = h'.
Proof.
  intros h'. subst h'. unfold subscribers, subscribeToOrder.
  cbn [orderClients clients]. rewrite !lookup_insert_eq. cbn [default].
  split; [done|].
  split; [intros o' Hne; by rewrite lookup_insert_ne|]. split; [done|].
  f_equal. rewrite insert_insert_eq. f_equal.
  unfold setAdd. destruct (decide (c ∈ default [] (orderClients h !! o))) as [Hin|Hin].
  - by rewrite decide_True.
  - rewrite decide_True; [done|]. apply elem_of_app. right. by left.
Qed.

Lemma subscribeToOrder_adds_once_witness :
  subscribers (subscribeToOrder "client-9" "order-1" hub1) "order-7" =
  subscribers hub1 "order-7".
Proof.
  apply (proj1 (proj2 (subscribeToOrder_adds_once "client-9" "order-1" hub1))).
  discriminate.
Defined.

(** The client count follows the registry: a new id adds one, an id that is
    registered again replaces its handle and adds nothing, unregistering takes
    one away if the id was registered and nothing otherwise; subscriptions do
    not count. *)
Theorem getClientCount_follows_registry (c : string) (ws : WebSocket)
    (h : WebSocketManager) :
  getClientCount (registerClient c ws h) =
    match clients h !! c with
    | Some _ => getClientCount h
    | None => S (getClientCount h)
    end ∧
  getClientCount (unregisterClient c h) =
    match clients h !! c with
    | Some _ => pred (getClientCount h)
    | None => getClientCount h
    end ∧
  getClientCount (unregisterClient c (registerClient c ws h)) =
    getClientCount (unregisterClient c h) ∧
  (∀ o, getClientCount (subscribeToOrder c o h) = getClientCount h).
Proof.
  unfold getClientCount. simpl. split; [|split; [|split]].
  - destruct (clients h !! c) as [ws0|] eqn:Hc.
    + apply map_size_insert_Some. by eexists.
    + by apply map_size_insert_None.
  - destruct (clients h !! c) as [ws0|] eqn:Hc.
    + apply map_size_delete_Some. by eexists.
    + by apply map_size_delete_None.
  - by rewrite delete_insert_eq.
  - done.
Qed.

(** ** A broadcast settles the subscriber set *)

(** A broadcast sends to the subscribers that can be sent to, in the order in
    which they subscribed; the set it leaves holds exactly them, so that a
    second broadcast for the order drops nobody, leaves the hub as it is and
    reaches the same clients. *)
Theorem broadcast_settles (message message' : WebSocketMessage)
    (h : WebSocketManager) :
  let receivers :=
    filter (λ c, canSend h c = true) (subscribers h (m_orderId message)) in
  let h' := (broadcast message h).1 in
  (broadcast message h).2 = (λ c, (c, message)) <$> receivers ∧
  subscribers h' (m_orderId message) = receivers ∧
  (m_orderId message' = m_orderId message →
   broadcast message' h' = (h', (λ c, (c, message')) <$> receivers)).
Proof.
  intros receivers h'.
  split; [apply broadcast_out|]. split; [apply broadcast_survivors|].
  intros Hid. unfold broadcast at 1. rewrite broadcast_fold, Hid.
  fold (subscribers h' (m_orderId message)).
  assert (Hsub : subscribers h' (m_orderId message) = receivers)
    by apply broadcast_survivors.
  rewrite Hsub.
  assert (Hlive : ∀ x, x ∈ receivers → canSend h' x = true).
  { intros x [Hx _]%list_elem_of_filter. subst h'. by rewrite canSend_broadcast. }
  rewrite (filter_none (λ c, canSend h' c = false)), (filter_all (λ c, canSend h' c = true));
    [done | done | intros x Hx; rewrite (Hlive x Hx); discriminate].
Qed.

Lemma broadcast_settles_witness :
  broadcast message1 (broadcast message1 hub1).1 =
  ((broadcast message1 hub1).1,
   [("client-1", message1); ("client-3", message1)]).
Proof.
  apply (proj2 (proj2 (broadcast_settles message1 message1 hub1))).
  reflexivity.
Defined.

(** A client that connects to an order, as the websocket route does (it is
    registered, then subscribed), gets the next broadcast for the order
    exactly once when its handle is open and sends; when it disconnects
    before the broadcast it gets nothing. *)
Theorem connected_client_gets_broadcast (c : string) (ws : WebSocket)
    (message : WebSocketMessage) (ops : list HubOp) :
  let h := subscribeToOrder c (m_orderId message) (registerClient c ws (runHub ops)) in
  (readyState ws = 1%nat → sendThrows ws = false →
   receivedBy c (broadcast message h).2 = [message]) ∧
  receivedBy c (broadcast message (unregisterClient c h)).2 = [].
Proof.
  intros h. split.
  - intros Hopen Hsend. apply receivedBy_broadcast.
    destruct (runHub_invariant ops) as [Hwf _].
    split; [apply hubWf_subscribers; by apply hubWf_subscribeToOrder, hubWf_registerClient|].
    split.
    + unfold h, subscribers, subscribeToOrder. cbn [orderClients].
      rewrite lookup_insert_eq. cbn [default]. unfold setAdd.
      case_decide; [done|]. apply elem_of_app. right. by left.
    + unfold canSend, h. simpl. rewrite lookup_insert_eq.
      rewrite bool_decide_eq_true_2 by done. by rewrite Hsend.
  - rewrite broadcast_out.
    apply receivedBy_others. intros [_ Hin]%list_elem_of_filter.
    rewrite subscribers_unregisterClient, elem_of_setDelete in Hin. tauto.
Qed.

Lemma connected_client_gets_broadcast_witness :
  receivedBy "client-9"
    (broadcast message1
       (subscribeToOrder "client-9" (m_orderId message1)
          (registerClient "client-9" openSocket
             (runHub [OpRegister "client-1" openSocket;
                      OpSubscribe "client-1" "order-1"])))).2 = [message1].
Proof.
  apply (proj1 (connected_client_gets_broadcast "client-9" openSocket message1
                  [OpRegister "client-1" openSocket;
                   OpSubscribe "client-1" "order-1"])); reflexivity.
Defined.

(** ** What a transition tells the observers *)

Lemma updateOrderStatus_effects env oid st upd w o :
  orders w !! oid = Some o →
  storeFault env (storeCalls w) = None →
  storeFault env (S (storeCalls w)) = None →
  ∃ w', updateOrderStatus env oid st upd w = (Ok tt, w') ∧
        hub w' = (broadcast (statusMessage env (clockReads w) o st upd) (hub w)).1 ∧
        sent w' =
          sent w ++ (broadcast (statusMessage env (clockReads w) o st upd) (hub w)).2.
Proof.
  intros Ho F1 F2.
  unfold updateOrderStatus, findUnique, update, storeCall, newDate, bind.
  rewrite F1. simpl. rewrite Ho. simpl. rewrite F2, Ho.
  unfold broadcastOrderUpdate, newDate, bind. simpl.
  destruct (broadcast _ _) as [h out] eqn:Hb.
  eexists. split; [reflexivity|]. done.
Qed.

Lemma receivedBy_app c l1 l2 :
  receivedBy c (l1 ++ l2) = receivedBy c l1 ++ receivedBy c l2.
Proof. unfold receivedBy. by rewrite filter_app, fmap_app. Qed.

Lemma listening_update env oid os w cnt row st upd w' c :
  tracks oid os w cnt row →
  listening c (id row) (hub w) →
  updateOrderStatus env oid st upd w = (Ok tt, w') →
  listening c (id row) (hub w') ∧
  receivedBy c (sent w') =
    receivedBy c (sent w) ++ [statusMessage env cnt row st upd].
Proof.
  intros Ht Hl Hrun. pose proof (tracks_lookup _ _ _ _ _ Ht) as Hrow.
  destruct Ht as [_ Hc].
  pose proof Hrun as Hinv. apply updateOrderStatus_inv in Hinv
    as [(_ & o & Ho & F1 & F2 & _)|(e & [=] & _)].
  destruct (updateOrderStatus_effects env oid st upd w row Hrow F1 F2)
    as (w'' & Hrun' & Hhub & Hsent).
  rewrite Hrun in Hrun'. injection Hrun' as <-. rewrite Hc in *.
  destruct (receivedBy_broadcast c (statusMessage env cnt row st upd) (hub w) Hl)
    as [Hrecv Hl'].
  rewrite Hhub, Hsent, receivedBy_app, Hrecv. done.
Qed.

(** A transition that goes through is announced with one message to every
    subscriber of the order that can be sent to, in subscription order; the
    message is a [status_update] for the order that carries the new status
    and, as its history, the history just written to the row. *)
Theorem updateOrderStatus_announces_transition env oid st upd w o :
  orders w !! oid = Some o →
  storeFault env (storeCalls w) = None →
  storeFault env (S (storeCalls w)) = None →
  ∃ w' row message,
    updateOrderStatus env oid st upd w = (Ok tt, w') ∧
    orders w' !! oid = Some row ∧
    sent w' =
      sent w ++ ((λ c, (c, message)) <$>
                   filter (λ c, canSend (hub w) c = true)
                          (subscribers (hub w) (id o))) ∧
    m_type message = "status_update" ∧
    m_orderId message = id o ∧
    m_status message = st ∧
    s_status (m_order message) = status row ∧
    statusHistory row = HistJson (s_statusHistory (m_order message)) ∧
    last (s_statusHistory (m_order message)) =
      Some (transitionEntry env (clockReads w) st upd).
Proof.
  intros Ho F1 F2.
  destruct (updateOrderStatus_effects env oid st upd w o Ho F1 F2)
    as (w' & Hrun & _ & Hsent).
  destruct (updateOrderStatus_Ok env oid st upd w o Ho F1 F2)
    as (w'' & Hrun' & Hos & _).
  rewrite Hrun in Hrun'. injection Hrun' as <-.
  exists w', (transitionRow env (clockReads w) o st upd),
         (statusMessage env (clockReads w) o st upd).
  split; [done|]. split; [by rewrite Hos, lookup_insert_eq|].
  split; [by rewrite Hsent, broadcast_out|].
  repeat split; try done. simpl. by rewrite last_snoc.
Qed.

Lemma updateOrderStatus_announces_transition_witness :
  ∃ w' row message,
    updateOrderStatus envCalm "order-1" routing noUpdates world1 = (Ok tt, w') ∧
    orders w' !! "order-1" = Some row ∧
    sent w' =
      sent world1 ++ ((λ c, (c, message)) <$>
                   filter (λ c, canSend (hub world1) c = true)
                          (subscribers (hub world1) (id order1))) ∧
    m_type message = "status_update" ∧
    m_orderId message = id order1 ∧
    m_status message = routing ∧
    s_status (m_order message) = status row ∧
    statusHistory row = HistJson (s_statusHistory (m_order message)) ∧
    last (s_statusHistory (m_order message)) =
      Some (transitionEntry envCalm (clockReads world1) routing noUpdates).
Proof.
  apply (updateOrderStatus_announces_transition envCalm "order-1" routing
           noUpdates world1 order1); reflexivity.
Defined.

(** Over an attempt that completes, a client that listens to the order
    receives exactly four messages, in this order: routing, building,
    submitted, confirmed; each is a [status_update] for the order, and the
    last one carries the transaction hash. *)
Theorem orderWorker_streams_lifecycle env job w hash w' o c :
  orders w !! orderId job = Some o →
  listening c (id o) (hub w) →
  orderWorker env job w = (Ok hash, w') →
  ∃ m1 m2 m3 m4,
    receivedBy c (sent w') = receivedBy c (sent w) ++ [m1; m2; m3; m4] ∧
    m_status <$> [m1; m2; m3; m4] = [routing; building; submitted; confirmed] ∧
    Forall (λ m, m_type m = "status_update" ∧ m_orderId m = id o) [m1; m2; m3; m4] ∧
    s_txHash (m_order m4) = Some hash ∧
    (t_status <$> s_statusHistory (m_order m4)) =
      historyStatuses o ++ [routing; building; submitted; confirmed].
Proof.
  intros Ho Hl Hrun. unfold orderWorker in Hrun.
  apply tryCatch_inv in Hrun as [(a & Hbody & [= <-])|(e & w0 & _ & Hh)].
  2:{ apply catch_rethrows in Hh as [e' [=]]. }
  apply tracks_start in Ho as Ht0.
  apply bind_Ok_inv in Hbody as ([] & w1 & H1 & Hbody).
  destruct (tracks_update _ _ _ _ _ _ _ _ _ Ht0 H1) as (Ht1 & Hq1 & Hs1).
  destruct (listening_update _ _ _ _ _ _ _ _ _ c Ht0 Hl H1) as (Hl1 & Hr1).
  apply bind_Ok_inv in Hbody as (q & w2 & H2 & Hbody).
  rewrite getBestQuote_run in H2. injection H2 as <- <-.
  apply tracks_tickQuote in Ht1 as Ht2.
  apply bind_Ok_inv in Hbody as ([] & w3 & H3 & Hbody).
  destruct (tracks_update _ _ _ _ _ _ _ _ _ Ht2 H3) as (Ht3 & _ & Hs3).
  destruct (listening_update _ _ _ _ _ _ _ _ _ c Ht2 Hl1 H3) as (Hl3 & Hr3).
  apply bind_Ok_inv in Hbody as ([] & w4 & H4 & Hbody).
  destruct (tracks_update _ _ _ _ _ _ _ _ _ Ht3 H4) as (Ht4 & _ & Hs4).
  destruct (listening_update _ _ _ _ _ _ _ _ _ c Ht3 Hl3 H4) as (Hl4 & Hr4).
  apply bind_Ok_inv in Hbody as (h & w5 & H5 & Hbody).
  unfold executeSwap in H5. injection H5 as <- <-.
  apply tracks_tickSwap in Ht4 as Ht5.
  apply bind_Ok_inv in Hbody as ([] & w6 & H6 & Hret).
  destruct (listening_update _ _ _ _ _ _ _ _ _ c Ht5 Hl4 H6) as (_ & Hr6).
  unfold ret in Hret. injection Hret as <- <-.
  eexists _, _, _, _. split.
  { rewrite Hr6. cbn [sent tickSwap]. rewrite Hr4, Hr3. cbn [sent tickQuote].
    rewrite Hr1, <- !app_assoc. reflexivity. }
  split; [done|]. split; [by repeat constructor|]. split; [done|].
  simpl. rewrite !fmap_app. simpl. by rewrite <- !app_assoc.
Qed.

Lemma orderWorker_streams_lifecycle_witness :
  ∃ m1 m2 m3 m4,
    receivedBy "client-1" (sent worldDone) =
      receivedBy "client-1" (sent world1) ++ [m1; m2; m3; m4] ∧
    m_status <$> [m1; m2; m3; m4] = [routing; building; submitted; confirmed] ∧
    Forall (λ m, m_type m = "status_update" ∧ m_orderId m = id order1)
           [m1; m2; m3; m4] ∧
    s_txHash (m_order m4) = Some ("0x" +:+ randomHex envCalm 64 0) ∧
    (t_status <$> s_statusHistory (m_order m4)) =
      historyStatuses order1 ++ [routing; building; submitted; confirmed].
Proof.
  apply (orderWorker_streams_lifecycle envCalm job1 world1
           ("0x" +:+ randomHex envCalm 64 0) worldDone order1 "client-1").
  - reflexivity.
  - assert (Hsubs : subscribers (hub world1) (id order1) =
                    ["client-1"; "client-2"; "client-3"]) by (vm_compute; reflexivity).
    unfold listening. rewrite Hsubs. split; [|split].
    + repeat (constructor; [rewrite ?elem_of_cons, ?elem_of_nil; intros H;
                            repeat destruct H as [H|H]; discriminate || done|]).
      constructor.
    + by left.
    + vm_compute. reflexivity.
  - vm_compute. reflexivity.
Defined.

(** ** More on an attempt of the worker *)

Lemma orderWorker_completes_witness :
  ∃ hash w', orderWorker envCalm job1 world1 = (Ok hash, w').
Proof.
  apply (orderWorker_completes envCalm job1 world1 order1); reflexivity.
Defined.

Lemma submitted_then_completed_witness :
  ∃ o', orders (orderWorker envCalm job2 worldSubmitted).2 !! "order-2" = Some o' ∧
        status o' = confirmed ∧
        historyStatuses o' = [pending; routing; building; submitted; confirmed] ∧
        (clockMonotone envCalm → Sorted Z.le (historyTimestamps o')).
Proof.
  apply (submitted_then_completed envCalm bodyValid world1
           {| o_orderId := "order-2"; o_status := pending;
              o_tokenIn := "SOL"; o_tokenOut := "USDC";
              o_amountIn := "100.5"; o_createdAt := (t0 + 1000)%Z |}
           worldSubmitted job2 ("0x" +:+ randomHex envCalm 64 0)
           (orderWorker envCalm job2 worldSubmitted).2).
  - vm_compute. reflexivity.
  - reflexivity.
  - vm_compute. reflexivity.
Defined.

Lemma updateOrderStatus_missing env oid st upd w :
  orders w !! oid = None →
  storeFault env (storeCalls w) = None →
  updateOrderStatus env oid st upd w =
    (Throw (JsError ("Order " +:+ oid +:+ " not found")), tickStore w).
Proof.
  intros Hnone F1. unfold updateOrderStatus, findUnique, storeCall, bind.
  rewrite F1. simpl. by rewrite Hnone.
Qed.

(** A job for an order that is not in the table: the first transition throws
    "not found", the catch block's own transition throws it again, and the
    attempt ends with that error; no row is created and nothing is sent. *)
Theorem orderWorker_on_missing_order env job w :
  orders w !! orderId job = None →
  storeFault env (storeCalls w) = None →
  storeFault env (S (storeCalls w)) = None →
  ∃ w', orderWorker env job w =
          (Throw (JsError ("Order " +:+ orderId job +:+ " not found")), w') ∧
        orders w' = orders w ∧ jobs w' = jobs w ∧
        hub w' = hub w ∧ sent w' = sent w ∧
        storeCalls w' = (2 + storeCalls w)%nat.
Proof.
  intros Hnone F1 F2. unfold orderWorker, tryCatch.
  rewrite (bind_run_Throw _ _ _ _ _
             (updateOrderStatus_missing env _ routing noUpdates w Hnone F1)).
  rewrite (bind_run_Throw _ _ _ _ _
             (updateOrderStatus_missing env _ failed _ (tickStore w) Hnone F2)).
  eexists. split; [reflexivity|]. done.
Qed.

Lemma orderWorker_on_missing_order_witness :
  ∃ w', orderWorker envCalm jobUnknown world1 =
          (Throw (JsError ("Order " +:+ orderId jobUnknown +:+ " not found")), w') ∧
        orders w' = orders world1 ∧ jobs w' = jobs world1 ∧
        hub w' = hub world1 ∧ sent w' = sent world1 ∧
        storeCalls w' = (2 + storeCalls world1)%nat.
Proof.
  apply (orderWorker_on_missing_order envCalm jobUnknown world1); reflexivity.
Defined.

(** A completed attempt records on the order the exchange of the best quote
    (one of the two), its price and the hash of the swap; it leaves the
    identity of the order, its creation time and its failure reason as they
    were, stamps [updatedAt] with the clock reading made for the last write,
    and touches no other row. *)
Theorem orderWorker_records_execution env job w hash w' o :
  orders w !! orderId job = Some o →
  orderWorker env job w = (Ok hash, w') →
  ∃ o' q,
    orders w' !! orderId job = Some o' ∧
    q = bestQuote (raydiumQuote (raydiumOut env (quoteCalls w)))
                  (meteoraQuote (meteoraOut env (quoteCalls w))) ∧
    (dex q = "raydium" ∨ dex q = "meteora") ∧
    dexUsed o' = Some (dex q) ∧
    executedPrice o' = Some (price q) ∧
    txHash o' = Some hash ∧
    hash = "0x" +:+ randomHex env 64 (swapCalls w) ∧
    (id o', tokenIn o', tokenOut o', amountIn o', createdAt o', failureReason o') =
      (id o, tokenIn o, tokenOut o, amountIn o, createdAt o, failureReason o) ∧
    updatedAt o' = dateNow env (10 + clockReads w) ∧
    (∀ k, k ≠ orderId job → orders w' !! k = orders w !! k).
Proof.
  intros Ho Hrun.
  destruct (orderWorker_Ok_inv env job w hash w' o Ho Hrun) as (Hhash & Hos & _).
  eexists _, _. split; [by rewrite Hos, lookup_insert_eq|]. split; [done|].
  split; [unfold bestQuote; destruct (jsGt _ _); [by left | by right]|].
  repeat split; try done.
  intros k Hk. by rewrite Hos, lookup_insert_ne.
Qed.

Lemma orderWorker_records_execution_witness :
  ∃ o' q,
    orders worldDone !! orderId job1 = Some o' ∧
    q = bestQuote (raydiumQuote (raydiumOut envCalm (quoteCalls world1)))
                  (meteoraQuote (meteoraOut envCalm (quoteCalls world1))) ∧
    (dex q = "raydium" ∨ dex q = "meteora") ∧
    dexUsed o' = Some (dex q) ∧
    executedPrice o' = Some (price q) ∧
    txHash o' = Some ("0x" +:+ randomHex envCalm 64 0) ∧
    "0x" +:+ randomHex envCalm 64 0 = "0x" +:+ randomHex envCalm 64 (swapCalls world1) ∧
    (id o', tokenIn o', tokenOut o', amountIn o', createdAt o', failureReason o') =
      (id order1, tokenIn order1, tokenOut order1, amountIn order1,
       createdAt order1, failureReason order1) ∧
    updatedAt o' = dateNow envCalm (10 + clockReads world1) ∧
    (∀ k, k ≠ orderId job1 → orders worldDone !! k = orders world1 !! k).
Proof.
  apply (orderWorker_records_execution envCalm job1 world1
           ("0x" +:+ randomHex envCalm 64 0) worldDone order1).
  - reflexivity.
  - vm_compute. reflexivity.
Defined.



(** ** The router: edge cases of the comparison, and the hash *)

Lemma jsGt_nan_l b : jsGt S754_nan b = false.
Proof. by destruct b. Qed.

Lemma jsGt_nan_r a : jsGt a S754_nan = false.
Proof. by destruct a. Qed.

(** The quote returned is always one of the two. When an [amountOut] is not a
    number the comparison is false and Meteora's quote is returned, even when
    it is Meteora's that is not a number. When the two amounts are strictly
    ordered, the choice does not depend on which source is asked first. *)
Theorem bestQuote_edge_cases (raydium meteora : DexQuote) :
  let a := parseFloat (amountOut raydium) in
  let b := parseFloat (amountOut meteora) in
  (bestQuote raydium meteora = raydium ∨ bestQuote raydium meteora = meteora) ∧
  (a = S754_nan ∨ b = S754_nan → bestQuote raydium meteora = meteora) ∧
  (jsGt a b = true ∨ jsGt b a = true →
   bestQuote meteora raydium = bestQuote raydium meteora).
Proof.
  intros a b. unfold bestQuote. fold a b. split; [|split].
  - destruct (jsGt a b); [by left | by right].
  - intros [-> | ->]; [by rewrite jsGt_nan_l | by rewrite jsGt_nan_r].
  - intros [Hab|Hba].
    + by rewrite Hab, (jsGt_asym _ _ Hab).
    + by rewrite Hba, (jsGt_asym _ _ Hba).
Qed.

Lemma bestQuote_edge_cases_witness :
  bestQuote (raydiumQuote "105") (meteoraQuote "NaN") = meteoraQuote "NaN" ∧
  bestQuote (meteoraQuote "105") (raydiumQuote "110") =
    bestQuote (raydiumQuote "110") (meteoraQuote "105").
Proof.
  split.
  - apply (proj1 (proj2 (bestQuote_edge_cases (raydiumQuote "105")
                           (meteoraQuote "NaN")))).
    right. vm_compute. reflexivity.
  - apply (proj2 (proj2 (bestQuote_edge_cases (raydiumQuote "110")
                           (meteoraQuote "105")))).
    left. vm_compute. reflexivity.
Defined.

(** White space before the number does not count, whatever its kind: a
    no-break space (the bytes C2 A0) or a byte order mark (EF BB BF) is
    skipped as a tab or a space is, so that a quote of 110 behind a no-break
    space beats a quote of 105. *)
Example parseFloat_skips_white_space :
  let nbsp := String (ascii_of_nat 194) (String (ascii_of_nat 160) "") in
  let bom :=
    String (ascii_of_nat 239)
      (String (ascii_of_nat 187) (String (ascii_of_nat 191) "")) in
  parseFloat (nbsp +:+ "110") = parseFloat "110" ∧
  parseFloat (bom +:+ " " +:+ nbsp +:+ "1.5") = parseFloat "1.5" ∧
  parseFloat ("1" +:+ nbsp +:+ "5") = parseFloat "1" ∧
  bestQuote (raydiumQuote (nbsp +:+ "110")) (meteoraQuote "105") =
    raydiumQuote (nbsp +:+ "110").
Proof. vm_compute. repeat split; reflexivity. Qed.

Lemma chars_append s1 s2 : chars (s1 +:+ s2) = chars s1 ++ chars s2.
Proof. induction s1 as [|c s1 IH]; simpl; [done | by rewrite IH]. Qed.

Lemma charAt_hexAlphabet d :
  (d < 16)%nat →
  ∃ c, charAt hexAlphabet d = String c EmptyString ∧ isLowerHex c = true.
Proof.
  intros Hd. do 16 (destruct d as [|d]; [by eexists|]). lia.
Qed.

Lemma lang_reRepeat r n l :
  length l = n → Forall (λ c, lang r [c]) l → lang (reRepeat n r) l.
Proof.
  intros <- Hl. induction Hl as [|c l Hc _ IH]; simpl; [constructor|].
  by apply (lang_cat r _ [c] l).
Qed.

Lemma randomHexLoop_chars todo i rand result :
  (∀ k, (k < todo)%nat → (rand (i + k) < 16)%nat) →
  ∃ l, chars (randomHexLoop todo i rand result) = chars result ++ l ∧
       length l = todo ∧ Forall (λ c, isLowerHex c = true) l.
Proof.
  revert i result. induction todo as [|todo IH]; intros i result Hr.
  { exists []. simpl. by rewrite app_nil_r. }
  simpl. destruct (charAt_hexAlphabet (rand i)) as (c & Hc & Hhex).
  { rewrite <- (Nat.add_0_r i). apply Hr. lia. }
  destruct (IH (S i) (result +:+ charAt hexAlphabet (rand i))) as (l & Hl & Hlen & Hall).
  { intros k Hk. replace (S i + k)%nat with (i + S k)%nat by lia. apply Hr. lia. }
  exists (c :: l). rewrite Hl, chars_append, Hc, <- app_assoc. simpl.
  split; [done|]. split; [by rewrite Hlen | by constructor].
Qed.

Lemma randomHexOf_chars n rand :
  (∀ i, (i < n)%nat → (rand i < 16)%nat) →
  ∃ l, chars (randomHexOf n rand) = l ∧ length l = n ∧
       Forall (λ c, isLowerHex c = true) l.
Proof.
  intros Hr. destruct (randomHexLoop_chars n 0 rand "" Hr) as (l & Hl & Hlen & Hall).
  exists l. done.
Qed.

Lemma length_chars s : String.length s = length (chars s).
Proof. induction s as [|c s IH]; simpl; [done | by rewrite IH]. Qed.

(** The hash that [executeSwap] returns is "0x" and the 64 characters that its
    call of [randomHex] draws from the alphabet. The indices drawn are within
    the alphabet, since [Math.random] is below 1; then the hash is "0x" and 64
    lower-case hexadecimal digits: it matches the pattern the router's tests
    use, and is 66 characters long. *)
Theorem executeSwap_hash_format env dexName tIn tOut amount w :
  (∀ i, (i < 64)%nat → (randomIndex env (swapCalls w) i < 16)%nat) →
  ∃ hash, executeSwap env dexName tIn tOut amount w = (Ok hash, tickSwap w) ∧
          regexTest txHashPattern hash = true ∧
          String.length hash = 66%nat.
Proof.
  intros Hrand. exists ("0x" +:+ randomHex env 64 (swapCalls w)).
  split; [reflexivity|]. unfold randomHex.
  destruct (randomHexOf_chars 64 (randomIndex env (swapCalls w)) Hrand)
    as (l & Hl & Hlen & Hall).
  generalize dependent (randomHexOf 64 (randomIndex env (swapCalls w))).
  intros hex Hl.
  assert (Hchars : chars ("0x" +:+ hex) = "0"%char :: "x"%char :: l)
    by (by rewrite chars_append, Hl).
  split.
  - apply regexTest_lang. rewrite Hchars. unfold txHashPattern.
    apply (lang_cat _ _ ["0"%char] ("x"%char :: l));
      [constructor; by apply bool_decide_eq_true|].
    apply (lang_cat _ _ ["x"%char] l);
      [constructor; by apply bool_decide_eq_true|].
    apply lang_reRepeat; [exact Hlen|].
    eapply Forall_impl; [exact Hall|]. intros c Hc. by constructor.
  - rewrite length_chars, Hchars. cbn [length]. by rewrite Hlen.
Qed.

Lemma executeSwap_hash_format_witness :
  ∃ hash, executeSwap envCalm "raydium" "SOL" "USDC" "100" world1 =
            (Ok hash, tickSwap world1) ∧
          regexTest txHashPattern hash = true ∧
          String.length hash = 66%nat.
Proof.
  apply (executeSwap_hash_format envCalm "raydium" "SOL" "USDC" "100" world1).
  intros i _. apply Nat.mod_upper_bound. discriminate.
Defined.

(** ** The redis client and its mock *)

(** The reconnection delay grows by 50 ms per attempt up to the fortieth and
    is 2000 ms from then on; it never decreases and never exceeds 2000 ms. *)
Theorem retryStrategy_capped (times times' : Z) :
  (1 ≤ times)%Z →
  (50 ≤ retryStrategy times ≤ 2000)%Z ∧
  (times ≤ 40 → retryStrategy times = 50 * times)%Z ∧
  (40 ≤ times → retryStrategy times = 2000)%Z ∧
  (times ≤ times' → retryStrategy times ≤ retryStrategy times')%Z.
Proof. unfold retryStrategy. lia. Qed.

Lemma retryStrategy_capped_witness :
  (50 ≤ retryStrategy 41 ≤ 2000)%Z ∧
  (41 ≤ 40 → retryStrategy 41 = 50 * 41)%Z ∧
  (40 ≤ 41 → retryStrategy 41 = 2000)%Z ∧
  (41 ≤ 1000 → retryStrategy 41 ≤ retryStrategy 1000)%Z.
Proof. apply (retryStrategy_capped 41 1000). lia. Defined.

(** The mock store: a value that was set is read back, except the empty
    string, which reads back as [null] as if the key were absent; other keys
    are not touched; [del] answers 1 for a key that was there and 0 otherwise,
    and the key reads [null] afterwards; [quit] empties the store. *)
Theorem redis_mock_get_set_del (key key' value : string)
    (data : gmap string string) :
  redisGet key (redisSet key value data).2 =
    (if decide (value = "") then None else Some value) ∧
  (key' ≠ key → redisGet key' (redisSet key value data).2 = redisGet key' data) ∧
  (redisDel key (redisSet key value data).2).1 = 1%Z ∧
  (data !! key = None → redisDel key data = (0%Z, data)) ∧
  redisGet key (redisDel key data).2 = None ∧
  (redisDel key (redisDel key data).2).1 = 0%Z ∧
  redisGet key (redisQuit data).2 = None.
Proof.
  unfold redisGet, redisSet, redisDel, redisQuit. simpl.
  rewrite !lookup_insert_eq, !lookup_delete_eq, lookup_empty.
  split; [done|]. split; [intros Hne; by rewrite lookup_insert_ne|].
  split; [by rewrite bool_decide_eq_true_2|].
  split; [|split; [done|split; [|done]]].
  - intros Hnone. rewrite Hnone, bool_decide_eq_false_2 by (by intros [? ?]).
    by rewrite delete_id.
  - by rewrite bool_decide_eq_false_2 by (by intros [? ?]).
Qed.

Lemma redis_mock_get_set_del_witness :
  redisGet "b" (redisSet "a" "" {[ "b" := "1" ]}).2 = redisGet "b" {[ "b" := "1" ]} ∧
  redisDel "a" {[ "b" := "1" ]} = (0%Z, {[ "b" := "1" ]}).
Proof.
  split.
  - apply (proj1 (proj2 (redis_mock_get_set_del "a" "b" "" {[ "b" := "1" ]}))).
    discriminate.
  - apply (proj1 (proj2 (proj2 (proj2
             (redis_mock_get_set_del "a" "b" "" {[ "b" := "1" ]}))))).
    reflexivity.
Defined.

(** ** The controller *)

Lemma length_ge_1 s : (1 ≤ String.length s)%nat ↔ s ≠ "".
Proof. destruct s; simpl; split; try done; try lia. Qed.

(** What the schema accepts, exactly: [tokenIn] and [tokenOut] are non-empty
    strings, [amountIn] is a string of digits with an optional fraction
    (a point and digits), and [orderType] is absent or "market"; the parsed
    request carries the three strings and the order type "market". *)
Theorem safeParse_accepts_exactly (body : RequestBody) (data : OrderRequest) :
  safeParse body = inl data ↔
    b_tokenIn body = JsString (r_tokenIn data) ∧ r_tokenIn data ≠ "" ∧
    b_tokenOut body = JsString (r_tokenOut data) ∧ r_tokenOut data ≠ "" ∧
    b_amountIn body = JsString (r_amountIn data) ∧
    decimalShape (chars (r_amountIn data)) ∧
    (b_orderType body = JsUndefined ∨ b_orderType body = JsString "market") ∧
    r_orderType data = "market".
Proof.
  unfold safeParse, zStringMin1, zStringRegex, zOrderType.
  destruct body as [tIn tOut amt ty], data as [a b c d]. simpl. split.
  - destruct tIn as [|sIn|]; try done. case_decide as HIn; [|done].
    destruct tOut as [|sOut|]; try done. case_decide as HOut; [|done].
    destruct amt as [|sAmt|]; try done.
    destruct (regexTest amountInPattern sAmt) eqn:Hre; [|by destruct ty; try case_decide].
    apply regexTest_lang, lang_amountInPattern in Hre.
    apply length_ge_1 in HIn, HOut.
    destruct ty as [|sTy|]; [| case_decide as HTy; [subst sTy|done] | done];
      intros [= <- <- <- <-]; repeat split; auto.
  - intros (-> & HIn & -> & HOut & -> & Hshape & Hty & ->).
    apply length_ge_1 in HIn, HOut.
    rewrite !decide_True by done.
    apply lang_amountInPattern, regexTest_lang in Hshape. rewrite Hshape.
    destruct Hty as [-> | ->]; [done|]. by rewrite decide_True.
Qed.

Lemma safeParse_market body data :
  safeParse body = inl data → r_orderType data = "market".
Proof.
  unfold safeParse.
  destruct (zStringMin1 "tokenIn" _ _) as [a|]; [|done].
  destruct (zStringMin1 "tokenOut" _ _) as [b|]; [|done].
  destruct (zStringRegex _ _ _ _) as [c|]; [|done].
  destruct (zOrderType _ _) as [ty|] eqn:Hty; [|done].
  intros [= <-]. simpl. unfold zOrderType in Hty.
  destruct (b_orderType body) as [|sTy|]; [by injection Hty as <- | | done].
  case_decide; [|done]. by injection Hty as <-.
Qed.

(** What [executeOrder] has done when it answers 201. *)
Lemma executeOrder_201_inv env body w r w1 :
  executeOrder env body w = (Ok (Reply201 r), w1) →
  ∃ data,
    safeParse body = inl data ∧
    storeFault env (storeCalls w) = None ∧
    orders w !! uuidv4 env (uuidCalls w) = None ∧
    orders w1 =
      <[uuidv4 env (uuidCalls w) :=
          createdRow env (clockReads w) (uuidv4 env (uuidCalls w)) data]> (orders w) ∧
    r = {| o_orderId := uuidv4 env (uuidCalls w); o_status := pending;
           o_tokenIn := r_tokenIn data; o_tokenOut := r_tokenOut data;
           o_amountIn := r_amountIn data;
           o_createdAt := dateNow env (S (clockReads w)) |} ∧
    storeCalls w1 = S (storeCalls w).
Proof.
  unfold executeOrder. intros Hrun.
  apply tryCatch_inv in Hrun as [(a & Hbody & [= <-])|(e & w0 & _ & [=])].
  destruct (safeParse body) as [data|issues]; [|by inversion Hbody].
  case_decide; [by inversion Hbody|]. exists data. split; [done|].
  apply bind_Ok_inv in Hbody as (oid & w2 & [= <- <-] & Hbody).
  apply bind_Ok_inv in Hbody as (ts & w3 & [= <- <-] & Hbody).
  apply bind_Ok_inv in Hbody as (now & w4 & [= <- <-] & Hbody).
  apply bind_Ok_inv in Hbody as (order & w5 & Hcreate & Hbody).
  apply bind_Ok_inv in Hbody as (j & w6 & Hadd & [= <- <-]).
  unfold create, storeCall in Hcreate. simpl in Hcreate.
  destruct (storeFault env (storeCalls w)); [discriminate|].
  destruct (orders w !! uuidv4 env (uuidCalls w)); [discriminate|].
  injection Hcreate as <- <-.
  apply addOrderToQueue_frame in Hadd as (Hos & _ & Hs & _).
  rewrite Hos, Hs. done.
Qed.

(** A request the schema accepts, when the store takes the insert and the id
    drawn is new: the table gains exactly the row of the order, pending, with
    the single pending entry and no execution data. When the queue then takes
    the job, the answer is 201 with the id drawn and status pending, and a
    job with the order's id is queued. When the queue rejects the job, the
    answer is 500 with the queue's message and no job is queued, yet the row
    has been inserted and stays. *)
Theorem executeOrder_creates_pending_order env body data w :
  safeParse body = inl data →
  storeFault env (storeCalls w) = None →
  orders w !! uuidv4 env (uuidCalls w) = None →
  let oid := uuidv4 env (uuidCalls w) in
  let row := createdRow env (clockReads w) oid data in
  ∃ reply w',
    executeOrder env body w = (Ok reply, w') ∧
    orders w' = <[oid := row]> (orders w) ∧
    (id row, status row, historyStatuses row) = (oid, pending, [pending]) ∧
    (queueFault env (queueCalls w) = None →
     reply = Reply201 {| o_orderId := oid; o_status := pending;
                         o_tokenIn := r_tokenIn data;
                         o_tokenOut := r_tokenOut data;
                         o_amountIn := r_amountIn data;
                         o_createdAt := dateNow env (S (clockReads w)) |} ∧
     ∃ j, jobs w' !! oid = Some j ∧
          (jobs w !! oid = None →
           jobId j = oid ∧ jobState j = job_waiting ∧
           orderId (jobData j) = oid)) ∧
    (∀ msg, queueFault env (queueCalls w) = Some msg →
            reply = Reply500 msg ∧ jobs w' = jobs w).
Proof.
  intros Hparse Hf Hfresh oid row. subst oid row.
  assert (Hmarket : r_orderType data = "market").
  { by apply safeParse_market in Hparse. }
  unfold executeOrder, tryCatch. rewrite Hparse.
  rewrite decide_False by (intros Hne; by apply Hne).
  unfold bind, uuid, newDate, create, storeCall. simpl.
  rewrite Hf. simpl. rewrite Hfresh. simpl.
  rewrite addOrderToQueue_run. simpl.
  destruct (queueFault env (queueCalls w)) as [msg|] eqn:Hq.
  { eexists _, _. split; [reflexivity|]. simpl. split; [done|]. split; [done|].
    split; [done|]. by intros msg' [= <-]. }
  unfold queueAdd. simpl.
  destruct (jobs w !! uuidv4 env (uuidCalls w)) as [j0|] eqn:Hj;
    [destruct (isLive j0) eqn:Hlive|].
  - eexists _, _. split; [reflexivity|]. simpl. split; [done|]. split; [done|].
    split; [|done]. intros _. split; [done|]. by exists j0.
  - eexists _, _. split; [reflexivity|]. simpl. split; [done|]. split; [done|].
    split; [|done]. intros _. split; [done|]. eexists.
    rewrite lookup_insert_eq. done.
  - eexists _, _. split; [reflexivity|]. simpl. split; [done|]. split; [done|].
    split; [|done]. intros _. split; [done|]. eexists.
    rewrite lookup_insert_eq. done.
Qed.

Lemma executeOrder_creates_pending_order_witness :
  (∃ w' j,
     executeOrder envCalm bodyValid world1 =
       (Ok (Reply201 {| o_orderId := "order-2"; o_status := pending;
                        o_tokenIn := "SOL"; o_tokenOut := "USDC";
                        o_amountIn := "100.5";
                        o_createdAt := (t0 + 1000)%Z |}), w') ∧
     historyStatuses <$> orders w' !! "order-2" = Some [pending] ∧
     jobs w' !! "order-2" = Some j ∧ jobState j = job_waiting) ∧
  (∃ w',
     executeOrder envQueueDown bodyValid world1 =
       (Ok (Reply500 "Connection is closed."), w') ∧
     historyStatuses <$> orders w' !! "order-2" = Some [pending] ∧
     jobs w' = jobs world1).
Proof.
  split.
  - destruct (executeOrder_creates_pending_order envCalm bodyValid
                {| r_tokenIn := "SOL"; r_tokenOut := "USDC";
                   r_amountIn := "100.5"; r_orderType := "market" |} world1)
      as (reply & w' & Hrun & Hos & _ & Hok & _);
      [vm_compute; reflexivity | reflexivity | reflexivity |].
    destruct (Hok eq_refl) as (-> & j & Hj & Hnew).
    destruct (Hnew eq_refl) as (_ & Hstate & _).
    exists w', j. split; [exact Hrun|]. rewrite Hos, lookup_insert_eq.
    split; [reflexivity|]. split; [exact Hj | exact Hstate].
  - destruct (executeOrder_creates_pending_order envQueueDown bodyValid
                {| r_tokenIn := "SOL"; r_tokenOut := "USDC";
                   r_amountIn := "100.5"; r_orderType := "market" |} world1)
      as (reply & w' & Hrun & Hos & _ & _ & Hdown);
      [vm_compute; reflexivity | reflexivity | reflexivity |].
    destruct (Hdown "Connection is closed." eq_refl) as (-> & Hjobs).
    exists w'. split; [exact Hrun|]. rewrite Hos, lookup_insert_eq.
    split; [reflexivity | exact Hjobs].
Defined.

(** A request the schema accepts, when the store rejects the insert: the
    answer is 500 with the store's message; no row is created, no job is
    queued, and the error does not escape the handler. *)
Theorem executeOrder_store_failure env body data w msg :
  safeParse body = inl data →
  storeFault env (storeCalls w) = Some msg →
  ∃ w', executeOrder env body w = (Ok (Reply500 msg), w') ∧
        orders w' = orders w ∧ jobs w' = jobs w ∧ sent w' = sent w.
Proof.
  intros Hparse Hf.
  assert (Hmarket : r_orderType data = "market")
    by (by apply safeParse_market in Hparse).
  unfold executeOrder, tryCatch. rewrite Hparse.
  rewrite decide_False by (intros Hne; by apply Hne).
  unfold bind, uuid, newDate, create, storeCall. simpl. rewrite Hf. simpl.
  eexists. split; [reflexivity|]. done.
Qed.

Lemma executeOrder_store_failure_witness :
  ∃ w', executeOrder envDown bodyValid world1 =
          (Ok (Reply500 "Can't reach database server"), w') ∧
        orders w' = orders world1 ∧ jobs w' = jobs world1 ∧
        sent w' = sent world1.
Proof.
  apply (executeOrder_store_failure envDown bodyValid
           {| r_tokenIn := "SOL"; r_tokenOut := "USDC";
              r_amountIn := "100.5"; r_orderType := "market" |} world1);
    vm_compute; reflexivity.
Defined.

Lemma getOrder_run env oid w :
  getOrder env oid w =
  (Ok match storeFault env (storeCalls w) with
      | Some msg => OrderError msg
      | None => match orders w !! oid with
                | Some o => OrderFound o
                | None => OrderNotFound
                end
      end, tickStore w).
Proof.
  unfold getOrder, tryCatch, bind, findUnique, storeCall.
  destruct (storeFault env (storeCalls w)); [done|]. simpl.
  by destruct (orders w !! oid).
Qed.

(** [getOrder] reads and never writes: it answers with the row, with "not
    found" for an unknown id, or with the store's error, and leaves the table
    as it is. Read right after an accepted request, under the id that was
    answered, it returns the order just created: pending, with the request's
    tokens and amount and the single pending entry. *)
Theorem getOrder_reads_created_order env body w r w1 :
  executeOrder env body w = (Ok (Reply201 r), w1) →
  storeFault env (storeCalls w1) = None →
  ∃ o, getOrder env (o_orderId r) w1 = (Ok (OrderFound o), tickStore w1) ∧
       (id o, status o, tokenIn o, tokenOut o, amountIn o, createdAt o) =
         (o_orderId r, o_status r, o_tokenIn r, o_tokenOut r, o_amountIn r,
          o_createdAt r) ∧
       status o = pending ∧ historyStatuses o = [pending] ∧
       (dexUsed o, executedPrice o, txHash o, failureReason o) =
         (None, None, None, None) ∧
       (∀ oid, orders (getOrder env oid w1).2 = orders w1) ∧
       (∀ oid, orders w1 !! oid = None →
               (getOrder env oid w1).1 = Ok OrderNotFound).
Proof.
  intros (data & _ & _ & _ & Hos & -> & _)%executeOrder_201_inv Hf.
  eexists. rewrite !getOrder_run, Hf, Hos. simpl. rewrite lookup_insert_eq.
  split; [reflexivity|]. repeat split; try done.
  - intros oid. by rewrite getOrder_run.
  - intros oid Hnone. by rewrite getOrder_run, Hf, Hos, Hnone.
Qed.

Lemma getOrder_reads_created_order_witness :
  ∃ o, getOrder envCalm "order-2" worldSubmitted =
         (Ok (OrderFound o), tickStore worldSubmitted) ∧
       status o = pending ∧ historyStatuses o = [pending].
Proof.
  destruct (getOrder_reads_created_order envCalm bodyValid world1
              {| o_orderId := "order-2"; o_status := pending;
                 o_tokenIn := "SOL"; o_tokenOut := "USDC";
                 o_amountIn := "100.5"; o_createdAt := (t0 + 1000)%Z |}
              worldSubmitted)
    as (o & Hget & _ & Hst & Hhist & _).
  - vm_compute. reflexivity.
  - reflexivity.
  - exists o. done.
Defined.

Lemma safeParse_accepts_exactly_witness :
  b_tokenIn bodyValid = JsString "SOL" ∧
  b_amountIn bodyValid = JsString "100.5" ∧
  decimalShape (chars "100.5").
Proof.
  destruct (proj1 (safeParse_accepts_exactly bodyValid
              {| r_tokenIn := "SOL"; r_tokenOut := "USDC";
                 r_amountIn := "100.5"; r_orderType := "market" |}))
    as (Hin & _ & _ & _ & Hamount & Hshape & _).
  - vm_compute. reflexivity.
  - simpl in *. done.
Defined.
